(** * SARIF handler of govulncheck: finding aggregation and report emission

    A shallow embedding of [internal/sarif/handler.go].  Go strings and byte
    slices are Rocq [string]s (sequences of bytes), Go maps are [gmap]s, a
    run-time panic (index out of range, nil dereference) is [None].  The
    findings, frames and definitions a caller passes are values: their
    pointers are taken to be non-nil, and nothing in the handler writes
    through them. *)

From Stdlib Require Import String Ascii ZArith Lia Bool Decimal DecimalString.
From stdpp Require Import gmap strings list sorting.

Local Open Scope string_scope.
Local Open Scope list_scope.
Local Open Scope nat_scope.

#[local] Set Warnings "-clear-no-such-hyp".

(** ** Imported packages *)

(** Package [govulncheck]: the message types the handler consumes.  Only
    the fields that [handler.go] and the emitters read or set are kept. *)
Module govulncheck.

Module Position.
Record t := { Filename : string; Offset : Z; Line : Z; Column : Z }.
End Position.

Module Frame.
Record t := { Module : string;
      Version : string;
      Package : string;
      Function : string;
      Receiver : string;
      Position : option Position.t }.
End Frame.

Module Finding.
Record t := { OSV : string;
      FixedVersion : string;
      Trace : list Frame.t }.
End Finding.

(** Modelled from the spec: type [ScanLevel] and its methods [WantSymbols]
    and [WantPackages] are declared in package govulncheck, outside the
    sources at hand.  The handler only ever asks a scan level these two
    questions, so a scan level is represented by the two answers; every
    implementation of the methods is covered. *)
Module ScanLevel.
Record t := { WantSymbols : bool; WantPackages : bool }.
End ScanLevel.

Module Config.
Record t := { ScannerName : string;
      ScannerVersion : string;
      ScanLevel : ScanLevel.t }.
End Config.

Module Progress.
Record t := { Message : string }.
End Progress.

End govulncheck.

(** Package [osv]: a vulnerability definition. *)
Module osv.
Module Entry.
Record t := { ID : string;
      Summary : string;
      Details : string;
      Aliases : list string }.
End Entry.
End osv.

(** ** The SARIF document

    The struct declarations live in [sarif.go]; the fields are the ones the
    composite literals of [handler.go] set. *)

Module Description.
Record t := { Text : string }.
End Description.

Module RuleTags.
Record t := { Tags : list string }.
End RuleTags.

Module Rule.
Record t := { ID : string;
    ShortDescription : Description.t;
    FullDescription : Description.t;
    HelpURI : string;
    Help : Description.t;
    Properties : RuleTags.t }.
End Rule.

Module Frame.
Record t := { Module : string }.
End Frame.

Module Stack.
Record t := { Frames : list Frame.t; Message : Description.t }.
End Stack.

Module Result.
Record t := { RuleID : string;
    Level : string;
    Message : Description.t;
    Stacks : list Stack.t }.
End Result.

Module Driver.
Record t := { Name : string;
    Version : string;
    InformationURI : string;
    Properties : govulncheck.Config.t;
    Rules : list Rule.t }.
End Driver.

Module Tool.
Record t := { Driver : Driver.t }.
End Tool.

Module Run.
Record t := { Tool : Tool.t; Results : list Result.t }.
End Run.

Module Log.
Record t := { Version : string; Schema : string; Runs : list Run.t }.
End Log.

(** ** Library functions the handler calls *)

(** Go's [error]; the nil error is [None]. *)
Definition error := string.

(** [s] is not the empty string. *)
Definition nonEmpty (s : string) : bool :=
  match s with EmptyString => false | String _ _ => true end.

(** [sort.SliceStable]: a stable sort puts the elements in the one order
    that is sorted for [less] and keeps elements that [less] does not
    separate in their original order.  Insertion from the right is such a
    sort. *)
Fixpoint insertStable {A} (less : A -> A -> bool) (x : A) (l : list A) : list A :=
  match l with
  | [] => [x]
  | y :: l' => if less y x then y :: insertStable less x l' else x :: y :: l'
  end.

Definition SliceStable {A} (less : A -> A -> bool) (l : list A) : list A :=
  foldr (insertStable less) [] l.

(** [sort.Strings]: increasing byte-wise order. *)
Definition Strings (l : list string) : list string := SliceStable String.ltb l.

(** [%d] of a non-negative [int]. *)
Definition fmt_d (n : nat) : string := NilZero.string_of_uint (Nat.to_uint n).

(** [io.Writer]: [Write] answers with the number of bytes taken and an
    error, and may change the sink. *)
Class Writer (W : Type) := Write : W -> string -> W * (nat * option error).

(** A sink that keeps what it is given, like [bytes.Buffer]. *)
Definition Buffer := list string.
#[export] Instance Buffer_Writer : Writer Buffer :=
  fun b s => (b ++ [s], (String.length s, None)).

(** A sink that refuses every write. *)
Inductive Broken := broken (why : error).
#[export] Instance Broken_Writer : Writer Broken :=
  fun b s => match b with broken e => (b, (0, Some e)) end.

(** Go leaves the order in which [range] visits a map unspecified.  The
    three [range] loops over maps in [handler.go] each get an enumeration
    of their map; the only thing known of it is that it lists every entry
    once. *)
Record MapRange := {
  range_rules : forall A, gmap string A -> list (string * A);
  range_results : forall A, gmap string A -> list (string * A);
  range_elems : gset string -> list string;
  range_rules_perm : forall A (m : gmap string A), range_rules A m ≡ₚ map_to_list m;
  range_results_perm : forall A (m : gmap string A), range_results A m ≡ₚ map_to_list m;
  range_elems_perm : forall s, range_elems s ≡ₚ elements s }.

(** ** helpers of package sarif that are not in [handler.go] *)

(** Modelled from the spec: [choose] is a helper of package sarif declared
    outside [handler.go].  Section 4.4 (the plural "s" is appended iff the
    count is not 1; the first qualifier is used when symbol-level results
    were asked for) fixes it: the first string when the condition holds,
    the second otherwise. *)
Definition choose (s1 s2 : string) (cond : bool) : string :=
  if cond then s1 else s2.

(** Modelled from the spec: [list] is a helper of package sarif declared
    outside [handler.go].  Section 4.4 renders the sorted units "as a
    comma-joined list", as in "(a, b)". *)
Definition list_ (elems : list string) : string := String.concat ", " elems.

(** ** handler.go *)

(** handler for sarif output.  [cfg] is a pointer that [NewHandler] leaves
    nil.  [findings] contains same-level findings for an OSV at the most
    precise level of granularity available. *)
Record handler (W : Type) := Handler {
  w : W;
  cfg : option govulncheck.Config.t;
  osvs : gmap string osv.Entry.t;
  findings : gmap string (list govulncheck.Finding.t) }.
Arguments Handler {W}.
Arguments w {W}.
Arguments cfg {W}.
Arguments osvs {W}.
Arguments findings {W}.

Definition NewHandler {W} (w : W) : handler W :=
  {| w := w; cfg := None; osvs := ∅; findings := ∅ |}.

Definition Config {W} (h : handler W) (c : govulncheck.Config.t) : handler W * option error :=
  ({| w := w h; cfg := Some c; osvs := osvs h; findings := findings h |}, None).

Definition Progress {W} (h : handler W) (p : govulncheck.Progress.t) : handler W * option error :=
  (h, None).

Definition OSV {W} (h : handler W) (e : osv.Entry.t) : handler W * option error :=
  ({| w := w h; cfg := cfg h; osvs := <[osv.Entry.ID e := e]> (osvs h);
      findings := findings h |}, None).

(** [moreSpecific] favors a call finding over a non-call finding and a
    package finding over a module finding.  [Trace[0]] panics on an empty
    trace. *)
Definition moreSpecific (f1 f2 : govulncheck.Finding.t) : option Z :=
  if (1 <? length (govulncheck.Finding.Trace f1)) && (1 <? length (govulncheck.Finding.Trace f2)) then
    Some 0%Z
  else if 1 <? length (govulncheck.Finding.Trace f1) then
    Some (-1)%Z
  else if 1 <? length (govulncheck.Finding.Trace f2) then
    Some 1%Z
  else
    fr1 ← head (govulncheck.Finding.Trace f1);
    fr2 ← head (govulncheck.Finding.Trace f2);
    if nonEmpty (govulncheck.Frame.Function fr1) && negb (nonEmpty (govulncheck.Frame.Function fr2)) then
      Some (-1)%Z
    else if negb (nonEmpty (govulncheck.Frame.Function fr1)) && nonEmpty (govulncheck.Frame.Function fr2) then
      Some 1%Z
    else if nonEmpty (govulncheck.Frame.Package fr1) && negb (nonEmpty (govulncheck.Frame.Package fr2)) then
      Some (-1)%Z
    else if negb (nonEmpty (govulncheck.Frame.Package fr1)) && nonEmpty (govulncheck.Frame.Package fr2) then
      Some (-1)%Z
    else
      Some 0%Z.

(** The group [Finding] stores for [f], given the group [fs] found under
    [f.OSV] (a missing key reads as the nil slice). *)
Definition submit (fs : list govulncheck.Finding.t) (f : govulncheck.Finding.t) : option (list govulncheck.Finding.t) :=
  match fs with
  | [] => Some [f]
  | f0 :: _ =>
      ms ← moreSpecific f f0;
      if (ms =? -1)%Z then Some [f]
      else if (ms =? 0)%Z then Some (fs ++ [f])
      else Some fs
  end.

Definition Finding {W} (h : handler W) (f : govulncheck.Finding.t) : option (handler W * option error) :=
  fs ← submit (default [] (findings h !! govulncheck.Finding.OSV f)) f;
  Some ({| w := w h; cfg := cfg h; osvs := osvs h;
           findings := <[govulncheck.Finding.OSV f := fs]> (findings h) |}, None).

Definition errorLevel := "error".
Definition warningLevel := "warning".
Definition informationalLevel := "note".

Definition level (f : govulncheck.Finding.t) (cfg : option govulncheck.Config.t) : option string :=
  fr ← head (govulncheck.Finding.Trace f);
  cfg ← cfg;
  if govulncheck.ScanLevel.WantSymbols (govulncheck.Config.ScanLevel cfg) then
    if nonEmpty (govulncheck.Frame.Function fr) then Some errorLevel
    else if nonEmpty (govulncheck.Frame.Package fr) then Some warningLevel
    else Some informationalLevel
  else if govulncheck.ScanLevel.WantPackages (govulncheck.Config.ScanLevel cfg) then
    if nonEmpty (govulncheck.Frame.Package fr) then Some errorLevel
    else Some warningLevel
  else Some errorLevel.

(** The typographic apostrophe U+2019 of the package-level qualifier, as
    the three bytes of its UTF-8 encoding. *)
Definition rsquo : string := String "226" (String "128" (String "153" EmptyString)).

Definition runCallAnalysis :=
  "Run the call-level analysis to understand whether your code actually calls the vulnerabilities.".

(** The keys of [uniqueElems] after the loop over [findings]: the module
    of every sink frame, or the package of every sink frame. *)
Definition uniqueElems (unit : govulncheck.Frame.t -> string) (findings : list govulncheck.Finding.t)
    : option (gset string) :=
  foldl (fun acc f => s ← acc; fr ← head (govulncheck.Finding.Trace f); Some ({[unit fr]} ∪ s))
        (Some ∅) findings.

Definition resultMessage (r : MapRange) (findings : list govulncheck.Finding.t)
    (cfg : option govulncheck.Config.t) : option string :=
  f0 ← head findings;
  frame ← head (govulncheck.Finding.Trace f0);
  uniq ← (if negb (nonEmpty (govulncheck.Frame.Function frame)) && negb (nonEmpty (govulncheck.Frame.Package frame))
          then uniqueElems govulncheck.Frame.Module findings
          else uniqueElems govulncheck.Frame.Package findings);
  let elems := Strings (range_elems r uniq) in
  let l := length elems in
  let elemList := list_ elems in
  '(main, addition) ←
    (if nonEmpty (govulncheck.Frame.Function frame) then
       Some ("calls vulnerable functions in " +:+ fmt_d l +:+ " package"
               +:+ choose EmptyString "s" (l =? 1) +:+ " (" +:+ elemList +:+ ").",
             EmptyString)
     else if nonEmpty (govulncheck.Frame.Package frame) then
       cfg ← cfg;
       Some ("imports " +:+ fmt_d l +:+ " vulnerable package"
               +:+ choose EmptyString "s" (l =? 1) +:+ " (" +:+ elemList +:+ ")",
             choose (", but doesn" +:+ rsquo +:+ "t appear to call any of the vulnerable symbols.")
                    (". " +:+ runCallAnalysis)
                    (govulncheck.ScanLevel.WantSymbols (govulncheck.Config.ScanLevel cfg)))
     else
       cfg ← cfg;
       let informational :=
         ", but doesn't appear to "
           +:+ choose "call" "import" (govulncheck.ScanLevel.WantSymbols (govulncheck.Config.ScanLevel cfg))
           +:+ " any of the vulnerable symbols." in
       Some ("depends on " +:+ fmt_d l +:+ " vulnerable module"
               +:+ choose EmptyString "s" (l =? 1) +:+ " (" +:+ elemList +:+ ")",
             choose informational (". " +:+ runCallAnalysis)
                    (govulncheck.ScanLevel.WantPackages (govulncheck.Config.ScanLevel cfg))));
  Some ("Your code " +:+ main +:+ addition).

(** [stack] transforms call stack in [f] to a sarif stack. *)
Definition stack (f : govulncheck.Finding.t) : option Stack.t :=
  let trace := govulncheck.Finding.Trace f in
  let frames := (fun frame => {| Frame.Module := govulncheck.Frame.Module frame |}) <$> reverse trace in
  vuln ← head trace;
  let vulnSym := govulncheck.Frame.Function vuln in
  let vulnSym := if nonEmpty (govulncheck.Frame.Receiver vuln)
                 then govulncheck.Frame.Receiver vuln +:+ "." +:+ vulnSym else vulnSym in
  let vulnSym := govulncheck.Frame.Package vuln +:+ "." +:+ vulnSym in
  Some {| Stack.Frames := frames;
          Stack.Message := {| Description.Text := "A call stack for vulnerable function " +:+ vulnSym |} |}.

Definition stacks (fs : list govulncheck.Finding.t) : option (list Stack.t) :=
  f0 ← head fs;
  fr ← head (govulncheck.Finding.Trace f0);
  if negb (nonEmpty (govulncheck.Frame.Function fr)) then Some []
  else
    stacks ← mapM stack fs;
    Some (SliceStable (fun si sj => String.ltb (Description.Text (Stack.Message si))
                                                (Description.Text (Stack.Message sj))) stacks).

Definition rule (h_osvs : gmap string osv.Entry.t) (id : string) : option Rule.t :=
  osv ← h_osvs !! id;
  let s := osv.Entry.Summary osv in
  let s := if nonEmpty s then s else osv.Entry.Details osv in
  Some {| Rule.ID := osv.Entry.ID osv;
          Rule.ShortDescription :=
            {| Description.Text := "[" +:+ osv.Entry.ID osv +:+ "] " +:+ s |};
          Rule.FullDescription := {| Description.Text := s |};
          Rule.HelpURI := "https://pkg.go.dev/vuln/" +:+ osv.Entry.ID osv;
          Rule.Help := {| Description.Text := osv.Entry.Details osv |};
          Rule.Properties := {| RuleTags.Tags := osv.Entry.Aliases osv |} |}.

Definition rules {W} (r : MapRange) (h : handler W) : option (list Rule.t) :=
  rs ← mapM (fun kv => rule (osvs h) kv.1) (range_rules r _ (findings h));
  Some (SliceStable (fun ri rj => String.ltb (Rule.ID ri) (Rule.ID rj)) rs).

Definition result {W} (r : MapRange) (h : handler W) (fs : list govulncheck.Finding.t) : option Result.t :=
  f0 ← head fs;
  lvl ← level f0 (cfg h);
  msg ← resultMessage r fs (cfg h);
  sts ← stacks fs;
  Some {| Result.RuleID := govulncheck.Finding.OSV f0;
          Result.Level := lvl;
          Result.Message := {| Description.Text := msg |};
          Result.Stacks := sts |}.

Definition results {W} (r : MapRange) (h : handler W) : option (list Result.t) :=
  results ← mapM (fun kv => result r h kv.2) (range_results r _ (findings h));
  Some (SliceStable (fun pi pj => String.ltb (Result.RuleID pi) (Result.RuleID pj)) results).

Definition toSarif {W} (r : MapRange) (h : handler W) : option Log.t :=
  cfg ← cfg h;
  rls ← rules r h;
  res ← results r h;
  let run :=
    {| Run.Tool := {| Tool.Driver :=
         {| Driver.Name := govulncheck.Config.ScannerName cfg;
            Driver.Version := govulncheck.Config.ScannerVersion cfg;
            Driver.InformationURI := "https://pkg.go.dev/golang.org/x/vuln/cmd/govulncheck";
            Driver.Properties := cfg;
            Driver.Rules := rls |} |};
       Run.Results := res |} in
  Some {| Log.Version := "2.1.0";
          Log.Schema := "https://json.schemastore.org/sarif-2.1.0.json";
          Log.Runs := [run] |}.

(** [json.MarshalIndent(v, prefix, indent)] is the encoder of the standard
    library; it answers with the bytes and an error. *)
Definition Marshaler := Log.t -> string -> string -> string * option error.

(** [Flush] is used to print out to [w] the sarif json output. *)
Definition Flush {W} `{Writer W} (r : MapRange) (json_MarshalIndent : Marshaler)
    (h : handler W) : option (handler W * option error) :=
  sLog ← toSarif r h;
  let '(s, err) := json_MarshalIndent sLog EmptyString "  " in
  match err with
  | Some e => Some (h, Some e)
  | None =>
      let '(w', _) := Write (w h) s in
      Some ({| w := w'; cfg := cfg h; osvs := osvs h; findings := findings h |}, None)
  end.

(** Two enumerations: the one stdpp computes, and its mirror image. *)
Definition rangeForward : MapRange :=
  {| range_rules := fun A m => map_to_list m;
     range_results := fun A m => map_to_list m;
     range_elems := elements;
     range_rules_perm := fun A m => reflexivity _;
     range_results_perm := fun A m => reflexivity _;
     range_elems_perm := fun s => reflexivity _ |}.

Definition rangeBackward : MapRange :=
  {| range_rules := fun A m => reverse (map_to_list m);
     range_results := fun A m => reverse (map_to_list m);
     range_elems := fun s => reverse (elements s);
     range_rules_perm := fun A m => reverse_Permutation _;
     range_results_perm := fun A m => reverse_Permutation _;
     range_elems_perm := fun s => reverse_Permutation _ |}.

(** ** Driving a handler

    The analysis engine (the emitters of package vulncheck) calls the
    handler's methods one after the other and stops at the first error. *)
Inductive call :=
  | CallConfig (c : govulncheck.Config.t)
  | CallProgress (p : govulncheck.Progress.t)
  | CallOSV (e : osv.Entry.t)
  | CallFinding (f : govulncheck.Finding.t).

Definition step {W} (h : handler W) (c : call) : option (handler W * option error) :=
  match c with
  | CallConfig c => Some (Config h c)
  | CallProgress p => Some (Progress h p)
  | CallOSV e => Some (OSV h e)
  | CallFinding f => Finding h f
  end.

Fixpoint drive {W} (h : handler W) (cs : list call) : option (handler W * option error) :=
  match cs with
  | [] => Some (h, None)
  | c :: cs' =>
      '(h', err) ← step h c;
      match err with
      | Some e => Some (h', Some e)
      | None => drive h' cs'
      end
  end.

(** One whole run: a fresh handler over the sink [w0], the calls [cs], one
    [Flush]. *)
Definition session {W} `{Writer W} (r : MapRange) (json_MarshalIndent : Marshaler)
    (w0 : W) (cs : list call) : option (handler W * option error) :=
  '(h, err) ← drive (NewHandler w0) cs;
  match err with
  | Some e => Some (h, Some e)
  | None => Flush r json_MarshalIndent h
  end.

(** What such a run leaves in a buffer, and the error it ends with. *)
Definition output (r : MapRange) (json_MarshalIndent : Marshaler) (cs : list call)
    : option (Buffer * option error) :=
  '(h, err) ← session r json_MarshalIndent ([] : Buffer) cs;
  Some (w h, err).


(** ** The vocabulary of the specification *)

(** The precision tier of a frame: module-only < package-populated <
    function-populated. *)
Inductive Tier := ModuleTier | PackageTier | FunctionTier.

Definition tierRank (t : Tier) : nat :=
  match t with ModuleTier => 0 | PackageTier => 1 | FunctionTier => 2 end.

Definition tier (fr : govulncheck.Frame.t) : Tier :=
  if nonEmpty (govulncheck.Frame.Function fr) then FunctionTier
  else if nonEmpty (govulncheck.Frame.Package fr) then PackageTier
  else ModuleTier.

(** The tier of a finding is the tier of its sink frame, [Trace[0]]. *)
Definition sinkTier (f : govulncheck.Finding.t) : option Tier :=
  tier <$> head (govulncheck.Finding.Trace f).

(** The levels [moreSpecific] tells apart: a trace of several frames is a
    call stack whatever its sink frame holds; a trace of one frame has the
    level of that frame. *)
Definition precision (f : govulncheck.Finding.t) : option nat :=
  if 1 <? length (govulncheck.Finding.Trace f) then Some 3
  else tierRank <$> sinkTier f.

(** A call stack as the emitters build it names the function of its sink. *)
Definition namesSink (f : govulncheck.Finding.t) : Prop :=
  match govulncheck.Finding.Trace f with
  | [] => False
  | [_] => True
  | fr :: _ => nonEmpty (govulncheck.Frame.Function fr) = true
  end.

(** The three severities and what the document calls them. *)
Inductive Severity := High | Medium | Informational.

Definition severityLevel (s : Severity) : string :=
  match s with
  | High => errorLevel
  | Medium => warningLevel
  | Informational => informationalLevel
  end.

(** The scan depth that was asked for. *)
Inductive Depth := SymbolDepth | PackageDepth | ModuleDepth.

Definition depth (l : govulncheck.ScanLevel.t) : Depth :=
  if govulncheck.ScanLevel.WantSymbols l then SymbolDepth
  else if govulncheck.ScanLevel.WantPackages l then PackageDepth
  else ModuleDepth.

(** The decision table of section 4.3, read off the specification. *)
Definition levelerTable (d : Depth) (hasFunction hasPackage : bool) : Severity :=
  match d with
  | SymbolDepth =>
      if hasFunction then High else if hasPackage then Medium else Informational
  | PackageDepth => if hasPackage then High else Medium
  | ModuleDepth => High
  end.

(** Byte-wise order on strings, as [<=] of Go. *)
Definition strle (s1 s2 : string) : Prop := String.leb s1 s2 = true.

(** ** Sample data *)

Definition frame (m p f : string) : govulncheck.Frame.t :=
  {| govulncheck.Frame.Module := m;
     govulncheck.Frame.Version := "v1.0.0";
     govulncheck.Frame.Package := p;
     govulncheck.Frame.Function := f;
     govulncheck.Frame.Receiver := EmptyString;
     govulncheck.Frame.Position := None |}.

Definition finding (id : string) (trace : list govulncheck.Frame.t) : govulncheck.Finding.t :=
  {| govulncheck.Finding.OSV := id;
     govulncheck.Finding.FixedVersion := "v1.0.1";
     govulncheck.Finding.Trace := trace |}.

Definition scanLevel (symbols packages : bool) : govulncheck.ScanLevel.t :=
  {| govulncheck.ScanLevel.WantSymbols := symbols;
     govulncheck.ScanLevel.WantPackages := packages |}.

Definition config (l : govulncheck.ScanLevel.t) : govulncheck.Config.t :=
  {| govulncheck.Config.ScannerName := "govulncheck";
     govulncheck.Config.ScannerVersion := "v1.0.0";
     govulncheck.Config.ScanLevel := l |}.

Definition entry (id summary : string) : osv.Entry.t :=
  {| osv.Entry.ID := id;
     osv.Entry.Summary := summary;
     osv.Entry.Details := "details";
     osv.Entry.Aliases := ["CVE-2023-0001"] |}.

Definition moduleFinding := finding "V1" [frame "example.com/m" EmptyString EmptyString].
Definition packageFinding := finding "V1" [frame "example.com/m" "example.com/m/p" EmptyString].
Definition functionFinding := finding "V1" [frame "example.com/m" "example.com/m/p" "F"].

Definition stackWithFunction :=
  finding "V1" [frame "example.com/m" "example.com/m/p" "F"; frame "example.com/n" "example.com/n/q" "main"].
Definition stackWithoutFunction :=
  finding "V1" [frame "example.com/m" "example.com/m/p" EmptyString; frame "example.com/n" "example.com/n/q" "main"].

(** A handler that holds one group. *)
Definition holding (id : string) (g : list govulncheck.Finding.t) : handler Buffer :=
  {| w := []; cfg := None; osvs := ∅; findings := {[ id := g ]} |}.

(** ** The aggregator, as the specification words it *)

(** A group is homogeneous when its members share the tier of their sink
    frames. *)
Definition homogeneous (g : list govulncheck.Finding.t) : Prop :=
  forall f1 f2, f1 ∈ g -> f2 ∈ g -> sinkTier f1 = sinkTier f2.

(** Monotonic replacement at a handler [h] and a finding [f], with the
    tiers module < package < function of the sink frames: a finding above
    the group leaves the group [f] alone, a finding below the group leaves
    the group as it was. *)
Definition MonotonicReplacementAt {W} (h : handler W) (f : govulncheck.Finding.t) : Prop :=
  forall f0 rest t t0,
    findings h !! govulncheck.Finding.OSV f = Some (f0 :: rest) ->
    sinkTier f = Some t -> sinkTier f0 = Some t0 ->
    (tierRank t0 < tierRank t ->
     exists h', Finding h f = Some (h', None) /\
                findings h' !! govulncheck.Finding.OSV f = Some [f]) /\
    (tierRank t < tierRank t0 ->
     exists h', Finding h f = Some (h', None) /\
                findings h' !! govulncheck.Finding.OSV f = Some (f0 :: rest)).

(** Invariant I1 after the findings [fs], submitted in this order to a
    fresh handler. *)
Definition HomogeneityAfter (fs : list govulncheck.Finding.t) : Prop :=
  (forall f, f ∈ fs -> govulncheck.Finding.Trace f <> []) ->
  forall h e, drive (NewHandler ([] : Buffer)) (CallFinding <$> fs) = Some (h, e) ->
  forall id g, findings h !! id = Some g -> homogeneous g.

(** What makes a group well-formed: it is not empty, its call stacks name
    their sink's function, and its members are at one level. *)
Definition levelled (g : list govulncheck.Finding.t) : Prop :=
  g <> [] /\ Forall namesSink g /\ exists p, Forall (fun f => precision f = Some p) g.

Definition levelledGroups {W} (h : handler W) : Prop :=
  forall id g, findings h !! id = Some g -> levelled g.

(** ** The composed message, as the specification words it *)

(** The identifying unit of a group whose first sink frame is [fr0]: the
    module path of a sink frame for a module-tier group, its package path
    otherwise. *)
Definition unitOf (fr0 fr : govulncheck.Frame.t) : string :=
  match tier fr0 with
  | ModuleTier => govulncheck.Frame.Module fr
  | _ => govulncheck.Frame.Package fr
  end.

(** The sink units of a group, in the order of the group. *)
Definition sinkUnits (unit : govulncheck.Frame.t -> string)
    (fs : list govulncheck.Finding.t) : list string :=
  omap (fun f => unit <$> head (govulncheck.Finding.Trace f)) fs.

(** The units the message enumerates: the keys of [uniqueElems] in
    increasing order. *)
Definition unitsOf (fr0 : govulncheck.Frame.t) (fs : list govulncheck.Finding.t) : list string :=
  Strings (elements (list_to_set (sinkUnits (unitOf fr0) fs) : gset string)).

(** The plural "s": present iff the count is not 1. *)
Definition plural (n : nat) : string :=
  if decide (n = 1) then EmptyString else "s".

(** The qualifier of section 4.4 for a package-tier and for a module-tier
    group, as the code spells them. *)
Definition packageQualifier (l : govulncheck.ScanLevel.t) : string :=
  if govulncheck.ScanLevel.WantSymbols l
  then ", but doesn" +:+ rsquo +:+ "t appear to call any of the vulnerable symbols."
  else ". Run the call-level analysis to understand whether your code actually calls the vulnerabilities.".

Definition moduleQualifier (l : govulncheck.ScanLevel.t) : string :=
  if govulncheck.ScanLevel.WantPackages l
  then (if govulncheck.ScanLevel.WantSymbols l
        then ", but doesn't appear to call any of the vulnerable symbols."
        else ", but doesn't appear to import any of the vulnerable symbols.")
  else ". Run the call-level analysis to understand whether your code actually calls the vulnerabilities.".

(** The message for [n] units [units] of a group whose first sink frame
    has tier [t]. *)
Definition messageFor (t : Tier) (l : govulncheck.ScanLevel.t) (units : list string) : string :=
  let n := length units in
  match t with
  | FunctionTier =>
      "Your code calls vulnerable functions in " +:+ fmt_d n +:+ " package" +:+ plural n
        +:+ " (" +:+ String.concat ", " units +:+ ")."
  | PackageTier =>
      "Your code imports " +:+ fmt_d n +:+ " vulnerable package" +:+ plural n
        +:+ " (" +:+ String.concat ", " units +:+ ")" +:+ packageQualifier l
  | ModuleTier =>
      "Your code depends on " +:+ fmt_d n +:+ " vulnerable module" +:+ plural n
        +:+ " (" +:+ String.concat ", " units +:+ ")" +:+ moduleQualifier l
  end.

(** A sample encoder: it prints the texts of the document, one per line. *)
Definition printStack (s : Stack.t) : string :=
  Description.Text (Stack.Message s) +:+ ": "
    +:+ String.concat " " (Frame.Module <$> Stack.Frames s).

Definition printResult (p : Result.t) : list string :=
  (Result.RuleID p +:+ " " +:+ Result.Level p +:+ " "
     +:+ Description.Text (Result.Message p)) :: (printStack <$> Result.Stacks p).

Definition printRule (p : Rule.t) : string :=
  Description.Text (Rule.ShortDescription p) +:+ " " +:+ Rule.HelpURI p.

Definition printRun (p : Run.t) : list string :=
  (printRule <$> Driver.Rules (Tool.Driver (Run.Tool p))) ++ (Run.Results p ≫= printResult).

Definition printLog : Marshaler :=
  fun log prefix indent =>
    (String.concat (String "010" EmptyString)
       ((fun line => prefix +:+ indent +:+ line) <$> (Log.Runs log ≫= printRun)), None).

(** ** The report for no finding *)

(** The document with one run that echoes the configuration [c] and holds
    neither rules nor results. *)
Definition emptyLog (c : govulncheck.Config.t) : Log.t :=
  {| Log.Version := "2.1.0";
     Log.Schema := "https://json.schemastore.org/sarif-2.1.0.json";
     Log.Runs :=
       [ {| Run.Tool := {| Tool.Driver :=
              {| Driver.Name := govulncheck.Config.ScannerName c;
                 Driver.Version := govulncheck.Config.ScannerVersion c;
                 Driver.InformationURI := "https://pkg.go.dev/golang.org/x/vuln/cmd/govulncheck";
                 Driver.Properties := c;
                 Driver.Rules := [] |} |};
            Run.Results := [] |} ] |}.

(** The configuration a handler holds after the calls [cs]: the one of the
    last [Config] call. *)
Definition lastConfig (c0 : option govulncheck.Config.t) (cs : list call)
    : option govulncheck.Config.t :=
  foldl (fun o c => match c with CallConfig c => Some c | _ => o end) c0 cs.

(** ** Determinism, as the specification words it *)

(** A handler whose maps are keyed the way [OSV] and [Finding] key them:
    a group is not empty and starts with a finding for its key, a
    definition sits under its own identifier. *)
Definition keyed {W} (h : handler W) : Prop :=
  (forall id g, findings h !! id = Some g ->
                exists f0 rest, g = f0 :: rest /\ govulncheck.Finding.OSV f0 = id) /\
  (forall id e, osvs h !! id = Some e -> osv.Entry.ID e = id).

(** Determinism for the submissions [cs1] and [cs2] under the
    configuration [c]: when one is a rearrangement of the other, the two
    runs end alike and leave the same bytes in the sink, whatever the
    encoder and whatever the order in which maps are visited. *)
Definition DeterminismAt (c : govulncheck.Config.t) (cs1 cs2 : list call) : Prop :=
  cs1 ≡ₚ cs2 ->
  forall (r1 r2 : MapRange) (m : Marshaler),
    output r1 m (CallConfig c :: cs1) = output r2 m (CallConfig c :: cs2).

(** Two call stacks for one symbol, reached from different modules. *)
Definition stackFromN :=
  finding "V1" [frame "example.com/m" "example.com/m/p" "F"; frame "example.com/n" "example.com/n/q" "main"].
Definition stackFromO :=
  finding "V1" [frame "example.com/m" "example.com/m/p" "F"; frame "example.com/o" "example.com/o/q" "main"].

(** ** What was submitted, by identifier *)

(** The findings and the definitions among the calls [cs], in the order of
    the calls. *)
Definition findingsOf (cs : list call) : list govulncheck.Finding.t :=
  omap (fun c => match c with CallFinding f => Some f | _ => None end) cs.

Definition definitionsOf (cs : list call) : list osv.Entry.t :=
  omap (fun c => match c with CallOSV e => Some e | _ => None end) cs.

Definition findingsFor (id : string) (cs : list call) : list govulncheck.Finding.t :=
  filter (fun f => govulncheck.Finding.OSV f = id) (findingsOf cs).

Definition definitionsFor (id : string) (cs : list call) : list osv.Entry.t :=
  filter (fun e => osv.Entry.ID e = id) (definitionsOf cs).

(** The group that [Finding] builds from the group [g] and the findings
    [fs], one after the other. *)
Fixpoint submitAll (g : list govulncheck.Finding.t) (fs : list govulncheck.Finding.t)
    : option (list govulncheck.Finding.t) :=
  match fs with
  | [] => Some g
  | f :: fs' => g' ← submit g f; submitAll g' fs'
  end.

(** A finding with a trace of several frames. *)
Definition isCallStack (f : govulncheck.Finding.t) : Prop :=
  1 < length (govulncheck.Finding.Trace f).

#[export] Instance isCallStack_dec (f : govulncheck.Finding.t) : Decision (isCallStack f).
Proof. unfold isCallStack. apply _. Defined.

(** A group that is empty or starts with a one-frame finding. *)
Definition startsFlat (g : list govulncheck.Finding.t) : Prop :=
  match g with [] => True | f0 :: _ => ~ isCallStack f0 end.

(** A finding with a trace, and a handler that holds no other. *)
Definition hasTrace (f : govulncheck.Finding.t) : Prop :=
  govulncheck.Finding.Trace f <> [].

Definition tracedGroups {W} (h : handler W) : Prop :=
  forall id g, findings h !! id = Some g -> Forall hasTrace g.

(** The label of a stack. *)
Definition stackLabel (s : Stack.t) : string := Description.Text (Stack.Message s).

(** ** Determinism, amended *)







(** ** The report for no finding, as the specification words it *)

(** An encoder that fails, as [json.MarshalIndent] does on a value it
    does not support. *)
Definition failingEncoder : Marshaler :=
  fun _ _ _ => (EmptyString, Some "json: unsupported value").

(** The claim for the calls [cs]: when they include a [Config] call and no
    [Finding] call, the run ends with the nil error and the sink was
    handed the encoding of the document of [emptyLog]. *)
Definition EmptyReportAt {W} `{Writer W} (r : MapRange) (m : Marshaler) (w0 : W)
    (cs : list call) : Prop :=
  (exists c, CallConfig c ∈ cs) ->
  (forall f, CallFinding f ∉ cs) ->
  exists h c,
    session r m w0 cs = Some (h, None) /\
    w h = (Write w0 (m (emptyLog c) EmptyString "  ").1).1.

(** * Package vulncheck: the emitters

    The functions that turn the results of the analysis into calls on a
    handler.  The types they read are declared in other files and in
    go/packages; the records below keep the fields these functions read.
    The slices of pointers they range over are taken to hold no nil
    pointer; the pointers they dereference one by one are options. *)

#[local] Set Warnings "-register-all".

Module packages.

Module Mod.
Inductive t := mk { Path : string; Version : string; Replace : option t }.
End Mod.

Module Package.
Record t := { PkgPath : string; Module : option Mod.t }.
End Package.

End packages.

Module token.
Module Position.
Record t := { Filename : string; Offset : Z; Line : Z; Column : Z }.
End Position.
End token.

(** [osv.Affected], read through [a.Module.Path] and through the [Path]
    of each of [a.EcosystemSpecific.Packages]. *)
Module Affected.
Record t := { ModulePath : string; PackagePaths : list string }.
End Affected.

Module FuncNode.
Record t := { Name : string; Package : option packages.Package.t }.
End FuncNode.

Module CallSite.
Record t := { Pos : option token.Position.t }.
End CallSite.

Module StackEntry.
Record t := { Function : option FuncNode.t; Call : option CallSite.t }.
End StackEntry.

(** A [CallStack] is a slice of entries; the nil slice is kept apart from
    the empty one where the code tells them apart. *)
Definition CallStack := list StackEntry.t.

Module Vuln.
Record t := { OSV : option osv.Entry.t;
  Symbol : string;
  ImportSink : option packages.Package.t }.
End Vuln.

Module ModVulns.
Record t := { Module : option packages.Mod.t; Vulns : list osv.Entry.t }.
End ModVulns.

(** What the emitters use and the sources at hand do not hold: the
    constant [internal.GoStdModulePath], the method [Receiver] of a
    function node, the field [Affected] of a definition, and the functions
    [FixedVersion], [modPath] and [modVersion], which may panic. *)
Class Env := {
  GoStdModulePath : string;
  Receiver : FuncNode.t -> string;
  AffectedOf : osv.Entry.t -> list Affected.t;
  FixedVersion : string -> string -> list Affected.t -> option string;
  modPath : option packages.Mod.t -> option string;
  modVersion : option packages.Mod.t -> option string }.

(** [govulncheck.Handler]: anything that takes the four calls. *)
Class IsHandler (H : Type) := handle : H -> call -> option (H * option error).

#[export] Instance sarif_Handler {W} : IsHandler (handler W) := step.

(** A handler that keeps the calls it is given and never fails. *)
Definition Recorder := list call.
#[export] Instance Recorder_Handler : IsHandler Recorder :=
  fun h c => Some (h ++ [c], None).

(** A [for] loop over a slice whose body may return an error, which ends
    the function, or panic. *)
Fixpoint forEach {S A} (body : S -> A -> option (S * option error)) (s : S) (l : list A)
    : option (S * option error) :=
  match l with
  | [] => Some (s, None)
  | x :: l' =>
      '(s', err) ← body s x;
      match err with
      | Some e => Some (s', Some e)
      | None => forEach body s' l'
      end
  end.

Definition zeroFrame : govulncheck.Frame.t :=
  {| govulncheck.Frame.Module := EmptyString;
     govulncheck.Frame.Version := EmptyString;
     govulncheck.Frame.Package := EmptyString;
     govulncheck.Frame.Function := EmptyString;
     govulncheck.Frame.Receiver := EmptyString;
     govulncheck.Frame.Position := None |}.

(** [fr.Module = path; fr.Version = version] *)
Definition setModule (path version : string) (fr : govulncheck.Frame.t) : govulncheck.Frame.t :=
  {| govulncheck.Frame.Module := path;
     govulncheck.Frame.Version := version;
     govulncheck.Frame.Package := govulncheck.Frame.Package fr;
     govulncheck.Frame.Function := govulncheck.Frame.Function fr;
     govulncheck.Frame.Receiver := govulncheck.Frame.Receiver fr;
     govulncheck.Frame.Position := govulncheck.Frame.Position fr |}.

(** [fr.Package = path] *)
Definition setPackage (path : string) (fr : govulncheck.Frame.t) : govulncheck.Frame.t :=
  {| govulncheck.Frame.Module := govulncheck.Frame.Module fr;
     govulncheck.Frame.Version := govulncheck.Frame.Version fr;
     govulncheck.Frame.Package := path;
     govulncheck.Frame.Function := govulncheck.Frame.Function fr;
     govulncheck.Frame.Receiver := govulncheck.Frame.Receiver fr;
     govulncheck.Frame.Position := govulncheck.Frame.Position fr |}.

Definition frameFromPackage (pkg : option packages.Package.t) : option govulncheck.Frame.t :=
  let fr := zeroFrame in
  fr ← match pkg with
       | Some p =>
           m ← packages.Package.Module p;
           Some (setPackage (packages.Package.PkgPath p)
                   (setModule (packages.Mod.Path m) (packages.Mod.Version m) fr))
       | None => Some fr
       end;
  p ← pkg;
  m ← packages.Package.Module p;
  match packages.Mod.Replace m with
  | Some rep => Some (setModule (packages.Mod.Path rep) (packages.Mod.Version rep) fr)
  | None => Some fr
  end.

Definition frameFromModule {env : Env} (md : option packages.Mod.t) (affected : list Affected.t)
    : option govulncheck.Frame.t :=
  md ← md;
  let fr := setModule (packages.Mod.Path md) (packages.Mod.Version md) zeroFrame in
  fr ← (if bool_decide (packages.Mod.Path md = GoStdModulePath) then
          foldl (fun acc a =>
                   fr ← acc;
                   if bool_decide (Affected.ModulePath a <> packages.Mod.Path md) then Some fr
                   else path ← head (Affected.PackagePaths a); Some (setPackage path fr))
                (Some fr) affected
        else Some fr);
  match packages.Mod.Replace md with
  | Some rep => Some (setModule (packages.Mod.Path rep) (packages.Mod.Version rep) fr)
  | None => Some fr
  end.

(** The frame of one stack entry in [tracefromEntries]. *)
Definition frameOfEntry {env : Env} (e : StackEntry.t) : option govulncheck.Frame.t :=
  fn ← StackEntry.Function e;
  fr ← frameFromPackage (FuncNode.Package fn);
  Some {| govulncheck.Frame.Module := govulncheck.Frame.Module fr;
          govulncheck.Frame.Version := govulncheck.Frame.Version fr;
          govulncheck.Frame.Package := govulncheck.Frame.Package fr;
          govulncheck.Frame.Function := FuncNode.Name fn;
          govulncheck.Frame.Receiver := Receiver fn;
          govulncheck.Frame.Position :=
            match StackEntry.Call e with
            | None => None
            | Some c =>
                match CallSite.Pos c with
                | None => None
                | Some pos =>
                    Some {| govulncheck.Position.Filename := token.Position.Filename pos;
                            govulncheck.Position.Offset := token.Position.Offset pos;
                            govulncheck.Position.Line := token.Position.Line pos;
                            govulncheck.Position.Column := token.Position.Column pos |}
                end
            end |}.

(** [tracefromEntries] creates a sequence of frames from [vcs], last
    entry first. *)
Definition tracefromEntries {env : Env} (vcs : CallStack) : option (list govulncheck.Frame.t) :=
  mapM frameOfEntry (reverse vcs).

(** [FixedVersion(modPath(m), modVersion(m), affected)] *)
Definition fixedVersionOf {env : Env} (m : option packages.Mod.t) (affected : list Affected.t)
    : option string :=
  path ← modPath m;
  version ← modVersion m;
  FixedVersion path version affected.

Definition emitOSVs {H} `{!IsHandler H} (handler : H) (modVulns : list ModVulns.t)
    : option (H * option error) :=
  forEach (fun handler mv =>
             forEach (fun handler v => handle handler (CallOSV v)) handler (ModVulns.Vulns mv))
          handler modVulns.

(** The finding of a vulnerability that is called, with the stack found
    for it. *)
Definition calledFinding {env : Env} (vuln : Vuln.t) (stack : CallStack)
    : option govulncheck.Finding.t :=
  sink ← Vuln.ImportSink vuln;
  osv ← Vuln.OSV vuln;
  fixed ← fixedVersionOf (packages.Package.Module sink) (AffectedOf osv);
  trace ← tracefromEntries stack;
  Some {| govulncheck.Finding.OSV := osv.Entry.ID osv;
          govulncheck.Finding.FixedVersion := fixed;
          govulncheck.Finding.Trace := trace |}.

(** The finding of a vulnerability that is only imported. *)
Definition importedFinding {env : Env} (vuln : Vuln.t) : option govulncheck.Finding.t :=
  osv ← Vuln.OSV vuln;
  sink ← Vuln.ImportSink vuln;
  fixed ← fixedVersionOf (packages.Package.Module sink) (AffectedOf osv);
  fr ← frameFromPackage (Vuln.ImportSink vuln);
  Some {| govulncheck.Finding.OSV := osv.Entry.ID osv;
          govulncheck.Finding.FixedVersion := fixed;
          govulncheck.Finding.Trace := [fr] |}.

(** [callstacks] is a map keyed by pointers: it is given by its entries,
    in the order in which [range] visits them. *)
Definition emitCalledVulns {env : Env} {H} `{!IsHandler H} (handler : H)
    (callstacks : list (Vuln.t * option CallStack)) : option (H * option error) :=
  let vulns :=
    SliceStable (fun vi vj => String.ltb (Vuln.Symbol vi.1) (Vuln.Symbol vj.1)) callstacks in
  forEach (fun (handler : H) (entry : Vuln.t * option CallStack) =>
             match entry.2 with
             | None => Some (handler, None)
             | Some stack =>
                 f ← calledFinding entry.1 stack;
                 handle handler (CallFinding f)
             end)
          handler vulns.

Definition emitModuleFindings {env : Env} {H} `{!IsHandler H} (handler : H) (modVulns : list ModVulns.t)
    : option (H * option error) :=
  forEach (fun handler vuln =>
             forEach (fun handler osv =>
                        fixed ← fixedVersionOf (ModVulns.Module vuln) (AffectedOf osv);
                        fr ← frameFromModule (ModVulns.Module vuln) (AffectedOf osv);
                        handle handler
                          (CallFinding {| govulncheck.Finding.OSV := osv.Entry.ID osv;
                                          govulncheck.Finding.FixedVersion := fixed;
                                          govulncheck.Finding.Trace := [fr] |}))
                     handler (ModVulns.Vulns vuln))
          handler modVulns.

Definition emitPackageFinding {env : Env} {H} `{!IsHandler H} (handler : H) (vuln : Vuln.t)
    : option (H * option error) :=
  f ← importedFinding vuln;
  handle handler (CallFinding f).

(** The body of the first loop of [emitBinaryResult]: the affected
    vulnerabilities, those with a call stack. *)
Definition emitAffected {env : Env} {H} `{!IsHandler H} (st : H * gset string)
    (entry : Vuln.t * option CallStack) : option ((H * gset string) * option error) :=
  let '(handler, emitted) := st in
  let '(vv, stack) := entry in
  sink ← Vuln.ImportSink vv;
  osv ← Vuln.OSV vv;
  fixed ← fixedVersionOf (packages.Package.Module sink) (AffectedOf osv);
  match stack with
  | None => Some ((handler, emitted), None)
  | Some stack =>
      trace ← tracefromEntries stack;
      '(handler', err) ←
        handle handler
          (CallFinding {| govulncheck.Finding.OSV := osv.Entry.ID osv;
                          govulncheck.Finding.FixedVersion := fixed;
                          govulncheck.Finding.Trace := trace |});
      Some ((handler', {[osv.Entry.ID osv]} ∪ emitted), err)
  end.

(** The body of its second loop: the vulnerabilities that are imported
    only. *)
Definition emitImported {env : Env} {H} `{!IsHandler H} (st : H * gset string)
    (entry : Vuln.t * option CallStack) : option ((H * gset string) * option error) :=
  let '(handler, emitted) := st in
  let '(vv, stacks) := entry in
  osv ← Vuln.OSV vv;
  if bool_decide (osv.Entry.ID osv ∈ emitted) then Some ((handler, emitted), None)
  else if negb (length (default [] stacks) =? 0) then Some ((handler, emitted), None)
  else
    f ← importedFinding vv;
    '(handler', err) ← handle handler (CallFinding f);
    Some ((handler', {[osv.Entry.ID osv]} ∪ emitted), err).

(** [vr.Vulns], each vulnerability with what [callstacks] holds for its
    pointer ([None]: the nil slice). *)
Definition emitBinaryResult {env : Env} {H} `{!IsHandler H} (handler : H)
    (vulns : list (Vuln.t * option CallStack)) : option (H * option error) :=
  '(st, err) ← forEach emitAffected (handler, (∅ : gset string)) vulns;
  match err with
  | Some e => Some (st.1, Some e)
  | None =>
      '(st', err') ← forEach emitImported st vulns;
      Some (st'.1, err')
  end.

(** ** Sample data for the emitters *)

Definition sampleEnv : Env :=
  {| GoStdModulePath := "stdlib";
     Receiver := fun _ => EmptyString;
     AffectedOf := fun _ => [ {| Affected.ModulePath := "stdlib";
                                 Affected.PackagePaths := ["net/http"] |} ];
     FixedVersion := fun _ _ _ => Some "v1.0.1";
     modPath := fun m => packages.Mod.Path <$> m;
     modVersion := fun m => packages.Mod.Version <$> m |}.

Definition plainModule (path : string) : packages.Mod.t :=
  packages.Mod.mk path "v1.0.0" None.

Definition forkedModule (path fork : string) : packages.Mod.t :=
  packages.Mod.mk path "v1.0.0" (Some (packages.Mod.mk fork "v1.0.0-fork" None)).

Definition package (path : string) (m : packages.Mod.t) : packages.Package.t :=
  {| packages.Package.PkgPath := path; packages.Package.Module := Some m |}.

Definition entryOf (name : string) (pkg : packages.Package.t) : StackEntry.t :=
  {| StackEntry.Function :=
       Some {| FuncNode.Name := name; FuncNode.Package := Some pkg |};
     StackEntry.Call := None |}.

Definition vulnOf (id symbol : string) (pkg : packages.Package.t) : Vuln.t :=
  {| Vuln.OSV := Some (entry id "summary");
     Vuln.Symbol := symbol;
     Vuln.ImportSink := Some pkg |}.

(** The module path and version a frame shows for the module [m]: those
    of its replacement when it has one. *)
Definition shownModule (m : packages.Mod.t) : string * string :=
  match packages.Mod.Replace m with
  | Some rep => (packages.Mod.Path rep, packages.Mod.Version rep)
  | None => (packages.Mod.Path m, packages.Mod.Version m)
  end.

(** * Properties *)

(** ** The byte-wise order on strings *)

Lemma ascii_compare_refl (a : ascii) : Ascii.compare a a = Eq.
Proof. unfold Ascii.compare. apply N.compare_refl. Qed.

Lemma string_compare_refl (s : string) : String.compare s s = Eq.
Proof. induction s as [|a s IH]; simpl; [done|]. by rewrite ascii_compare_refl. Qed.

Lemma ascii_compare_eq (a b : ascii) : Ascii.compare a b = Eq -> a = b.
Proof. apply Ascii.compare_eq_iff. Qed.

Lemma ascii_compare_lt_trans (a b c : ascii) :
  Ascii.compare a b = Lt -> Ascii.compare b c = Lt -> Ascii.compare a c = Lt.
Proof.
  unfold Ascii.compare. rewrite !N.compare_lt_iff. lia.
Qed.

Lemma string_compare_lt_trans (s1 s2 s3 : string) :
  String.compare s1 s2 = Lt -> String.compare s2 s3 = Lt -> String.compare s1 s3 = Lt.
Proof.
  revert s2 s3. induction s1 as [|a s1 IH]; intros [|b s2] [|c s3]; simpl; try done.
  destruct (Ascii.compare a b) eqn:Hab; try done.
  - apply ascii_compare_eq in Hab as ->.
    destruct (Ascii.compare b c) eqn:Hbc; try done. apply IH.
  - destruct (Ascii.compare b c) eqn:Hbc; try done.
    + apply ascii_compare_eq in Hbc as ->. by rewrite Hab.
    + by rewrite (ascii_compare_lt_trans a b c).
Qed.

Lemma ltb_leb (s1 s2 : string) : String.ltb s1 s2 = negb (String.leb s2 s1).
Proof.
  unfold String.ltb, String.leb. rewrite (String.compare_antisym s1 s2).
  by destruct (String.compare s2 s1).
Qed.


Lemma strle_antisym (s1 s2 : string) : strle s1 s2 -> strle s2 s1 -> s1 = s2.
Proof. apply String.leb_antisym. Qed.

Lemma strle_total (s1 s2 : string) : strle s1 s2 \/ strle s2 s1.
Proof. apply String.leb_total. Qed.

Lemma strle_trans (s1 s2 s3 : string) : strle s1 s2 -> strle s2 s3 -> strle s1 s3.
Proof.
  unfold strle, String.leb. intros H12 H23.
  destruct (String.compare s1 s2) eqn:E12; try done;
    destruct (String.compare s2 s3) eqn:E23; try done.
  - apply String.compare_eq_iff in E12 as ->. by rewrite E23.
  - apply String.compare_eq_iff in E12 as ->. by rewrite E23.
  - apply String.compare_eq_iff in E23 as ->. by rewrite E12.
  - by rewrite (string_compare_lt_trans s1 s2 s3).
Qed.

(** ** Sorting by a string key *)

Section ByKey.
Context {A : Type} (key : A -> string).

Let less (x y : A) : bool := String.ltb (key x) (key y).
Let le (x y : A) : Prop := strle (key x) (key y).

Lemma insertStable_Permutation (lt : A -> A -> bool) x l :
  insertStable lt x l ≡ₚ x :: l.
Proof.
  induction l as [|y l IH]; simpl; [done|].
  destruct (lt y x); [|done]. rewrite IH. apply Permutation_swap.
Qed.

Lemma SliceStable_Permutation (lt : A -> A -> bool) l : SliceStable lt l ≡ₚ l.
Proof.
  induction l as [|x l IH]; simpl; [done|].
  rewrite insertStable_Permutation. by rewrite IH.
Qed.

Lemma insertStable_sorted x l :
  StronglySorted le l -> StronglySorted le (insertStable less x l).
Proof.
  induction 1 as [|y l Hl IH Hy]; simpl.
  - repeat constructor.
  - destruct (less y x) eqn:E.
    + constructor; [done|].
      rewrite insertStable_Permutation. constructor; [|done].
      unfold less in E. rewrite ltb_leb in E. apply negb_true_iff in E.
      destruct (strle_total (key y) (key x)) as [?|Hxy]; [done|].
      unfold strle in Hxy. congruence.
    + assert (le x y) as Hxy.
      { unfold less in E. rewrite ltb_leb in E. by apply negb_false_iff in E. }
      constructor; [by constructor|]. constructor; [done|].
      eapply Forall_impl; [exact Hy|]. intros z Hz. by eapply strle_trans.
Qed.

Lemma SliceStable_sorted l : StronglySorted le (SliceStable less l).
Proof.
  induction l as [|x l IH]; simpl; [constructor|]. by apply insertStable_sorted.
Qed.

(** Distinct keys leave one sorted order: the order of the input is
    forgotten. *)
Lemma SliceStable_order_free l1 l2 :
  l1 ≡ₚ l2 -> NoDup (key <$> l1) -> SliceStable less l1 = SliceStable less l2.
Proof.
  intros Hp Hnd.
  apply (StronglySorted_unique_strong le); try apply SliceStable_sorted.
  - intros x1 x2 H1 H2 H12 H21.
    rewrite SliceStable_Permutation in H1.
    rewrite SliceStable_Permutation, <- Hp in H2.
    assert (key x1 = key x2) as Hk by by apply strle_antisym.
    clear H12 H21 Hp. induction l1 as [|y l1 IH]; [by inv H1|].
    apply NoDup_cons in Hnd as [Hy Hnd].
    inv H1; inv H2; try done.
    + exfalso. apply Hy. rewrite Hk. by apply list_elem_of_fmap_2.
    + exfalso. apply Hy. rewrite <- Hk. by apply list_elem_of_fmap_2.
    + by apply IH.
  - by rewrite !SliceStable_Permutation.
Qed.
End ByKey.

Lemma Strings_sorted (l : list string) : StronglySorted strle (Strings l).
Proof. apply (SliceStable_sorted id). Qed.

Lemma Strings_Permutation (l : list string) : Strings l ≡ₚ l.
Proof. apply SliceStable_Permutation. Qed.

Lemma Strings_order_free (l1 l2 : list string) :
  l1 ≡ₚ l2 -> NoDup l1 -> Strings l1 = Strings l2.
Proof.
  intros Hp Hnd. apply (SliceStable_order_free id); [done|]. by rewrite list_fmap_id.
Qed.

(** ** SpecificityResolver *)

Lemma ltb_1_length {A} (l : list A) : (1 <? length l) = true <-> 1 < length l.
Proof. apply Nat.ltb_lt. Qed.

Lemma ltb_1_length_false {A} (l : list A) : (1 <? length l) = false <-> length l <= 1.
Proof. apply Nat.ltb_ge. Qed.

(** C1.  Rule 3 of the resolver is not symmetric in the code.  Both sink
    frames lack a function name; [packageFinding] has a package and
    [moduleFinding] has none.  With the package finding first the answer is
    -1 (the first argument is the more specific one), and with the module
    finding first the answer is -1 again, where it had to be 1: the finding
    without a package is ranked above the one with a package. *)
Theorem moreSpecific_package_absent_first :
  moreSpecific packageFinding moduleFinding = Some (-1)%Z /\
  moreSpecific moduleFinding packageFinding = Some (-1)%Z /\
  moreSpecific moduleFinding packageFinding <> Some 1%Z.
Proof. repeat split; try reflexivity. discriminate. Qed.

(** C9.  The length of the traces comes first in [moreSpecific]: two
    traces of several frames are equal; a trace of several frames beats a
    trace of at most one frame, on either side; and whenever the two traces
    are not both of length one, the answer is the same for any other frames
    in traces of the same lengths, so no field of a frame is looked at. *)
Theorem moreSpecific_trace_length (f1 f2 : govulncheck.Finding.t) :
  let n1 := length (govulncheck.Finding.Trace f1) in
  let n2 := length (govulncheck.Finding.Trace f2) in
  (1 < n1 -> 1 < n2 -> moreSpecific f1 f2 = Some 0%Z) /\
  (1 < n1 -> n2 <= 1 -> moreSpecific f1 f2 = Some (-1)%Z) /\
  (n1 <= 1 -> 1 < n2 -> moreSpecific f1 f2 = Some 1%Z) /\
  (~ (n1 = 1 /\ n2 = 1) ->
   forall g1 g2 : govulncheck.Finding.t,
     length (govulncheck.Finding.Trace g1) = n1 ->
     length (govulncheck.Finding.Trace g2) = n2 ->
     moreSpecific g1 g2 = moreSpecific f1 f2).
Proof.
  intros n1 n2. subst n1 n2. unfold moreSpecific. repeat split.
  - intros H1 H2. apply ltb_1_length in H1, H2. by rewrite H1, H2.
  - intros H1 H2. apply ltb_1_length in H1. apply ltb_1_length_false in H2.
    by rewrite H1, H2.
  - intros H1 H2. apply ltb_1_length_false in H1. apply ltb_1_length in H2.
    by rewrite H1, H2.
  - intros Hn g1 g2 E1 E2. rewrite E1, E2.
    destruct (1 <? length (govulncheck.Finding.Trace f1)) eqn:L1,
      (1 <? length (govulncheck.Finding.Trace f2)) eqn:L2; simpl; try done.
    apply ltb_1_length_false in L1, L2.
    destruct (govulncheck.Finding.Trace f1) as [|a1 t1] eqn:T1.
    { destruct (govulncheck.Finding.Trace g1); [done|discriminate]. }
    destruct (govulncheck.Finding.Trace f2) as [|a2 t2] eqn:T2.
    { destruct (govulncheck.Finding.Trace g2); [|discriminate].
      simpl. by destruct (head (govulncheck.Finding.Trace g1)). }
    simpl in *. exfalso. apply Hn. lia.
Qed.

Lemma moreSpecific_trace_length_witness :
  moreSpecific (finding "V1" [frame "m" EmptyString EmptyString; frame "n" "n/q" "main"])
               (finding "V1" [frame "m" "m/p" "F"; frame "n" "n/q" "main"]) = Some 0%Z /\
  moreSpecific (finding "V1" [frame "m" EmptyString EmptyString; frame "n" "n/q" "main"])
               functionFinding = Some (-1)%Z /\
  moreSpecific functionFinding
               (finding "V1" [frame "m" EmptyString EmptyString; frame "n" "n/q" "main"]) = Some 1%Z /\
  moreSpecific (finding "V1" [frame "m" "m/p" "F"; frame "n" "n/q" "main"]) moduleFinding
  = moreSpecific (finding "V1" [frame "m" EmptyString EmptyString; frame "n" "n/q" "main"])
                 functionFinding.
Proof.
  split_and!.
  - apply (moreSpecific_trace_length
             (finding "V1" [frame "m" EmptyString EmptyString; frame "n" "n/q" "main"])
             (finding "V1" [frame "m" "m/p" "F"; frame "n" "n/q" "main"])); simpl; lia.
  - apply (moreSpecific_trace_length
             (finding "V1" [frame "m" EmptyString EmptyString; frame "n" "n/q" "main"])
             functionFinding); simpl; lia.
  - apply (moreSpecific_trace_length functionFinding
             (finding "V1" [frame "m" EmptyString EmptyString; frame "n" "n/q" "main"]));
      simpl; lia.
  - apply (moreSpecific_trace_length
             (finding "V1" [frame "m" EmptyString EmptyString; frame "n" "n/q" "main"])
             functionFinding); simpl; [lia|reflexivity|reflexivity].
Defined.

(** ** Leveler *)

(** C5.  [level] answers with the entry of the decision table for the scan
    depth and for what the sink frame holds, and with nothing but the three
    levels. *)
Theorem level_table (f : govulncheck.Finding.t) (cfg : govulncheck.Config.t)
    (fr : govulncheck.Frame.t) (tr : list govulncheck.Frame.t) :
  govulncheck.Finding.Trace f = fr :: tr ->
  level f (Some cfg)
  = Some (severityLevel
            (levelerTable (depth (govulncheck.Config.ScanLevel cfg))
               (nonEmpty (govulncheck.Frame.Function fr))
               (nonEmpty (govulncheck.Frame.Package fr)))) /\
  (level f (Some cfg) = Some "error" \/ level f (Some cfg) = Some "warning"
   \/ level f (Some cfg) = Some "note").
Proof.
  intros Htr. unfold level, depth, levelerTable. rewrite Htr. simpl.
  destruct (govulncheck.ScanLevel.WantSymbols (govulncheck.Config.ScanLevel cfg)),
    (govulncheck.ScanLevel.WantPackages (govulncheck.Config.ScanLevel cfg)),
    (nonEmpty (govulncheck.Frame.Function fr)),
    (nonEmpty (govulncheck.Frame.Package fr)); simpl; auto.
Qed.

Lemma level_table_witness :
  level moduleFinding (Some (config (scanLevel true true))) = Some "note" /\
  level packageFinding (Some (config (scanLevel true true))) = Some "warning" /\
  level functionFinding (Some (config (scanLevel true true))) = Some "error" /\
  level moduleFinding (Some (config (scanLevel false true))) = Some "warning" /\
  level packageFinding (Some (config (scanLevel false true))) = Some "error" /\
  level moduleFinding (Some (config (scanLevel false false))) = Some "error".
Proof.
  split_and!.
  - exact (proj1 (level_table moduleFinding (config (scanLevel true true)) _ [] eq_refl)).
  - exact (proj1 (level_table packageFinding (config (scanLevel true true)) _ [] eq_refl)).
  - exact (proj1 (level_table functionFinding (config (scanLevel true true)) _ [] eq_refl)).
  - exact (proj1 (level_table moduleFinding (config (scanLevel false true)) _ [] eq_refl)).
  - exact (proj1 (level_table packageFinding (config (scanLevel false true)) _ [] eq_refl)).
  - exact (proj1 (level_table moduleFinding (config (scanLevel false false)) _ [] eq_refl)).
Defined.

(** ** FindingAggregator *)

Lemma precision_is_Some (f : govulncheck.Finding.t) :
  govulncheck.Finding.Trace f <> [] -> is_Some (precision f).
Proof.
  unfold precision, sinkTier. destruct (govulncheck.Finding.Trace f) as [|a t]; [done|].
  intros _. destruct (1 <? length (a :: t)); simpl; eauto.
Qed.

(** How [moreSpecific] orders the levels it tells apart. *)
Lemma moreSpecific_precision (f f0 : govulncheck.Finding.t) (p p0 : nat) :
  precision f = Some p -> precision f0 = Some p0 ->
  (p0 < p -> moreSpecific f f0 = Some (-1)%Z) /\
  (p < p0 -> 2 <= p0 -> moreSpecific f f0 = Some 1%Z) /\
  (moreSpecific f f0 = Some 0%Z -> p = p0) /\
  is_Some (moreSpecific f f0).
Proof.
  unfold precision, sinkTier, moreSpecific, tier.
  destruct (govulncheck.Finding.Trace f) as [|a [|a' t]];
    destruct (govulncheck.Finding.Trace f0) as [|b [|b' t0]]; simpl; try done;
    repeat match goal with
           | |- context [nonEmpty ?s] => destruct (nonEmpty s)
           end; simpl; intros; simplify_eq; split_and!; intros; try done; try lia; eauto.
Qed.

Lemma namesSink_trace (f : govulncheck.Finding.t) :
  namesSink f -> govulncheck.Finding.Trace f <> [].
Proof. unfold namesSink. by destruct (govulncheck.Finding.Trace f). Qed.

Lemma submit_levelled (g : list govulncheck.Finding.t) (f : govulncheck.Finding.t) :
  g = [] \/ levelled g -> namesSink f ->
  exists g', submit g f = Some g' /\ levelled g'.
Proof.
  intros Hg Hf.
  destruct (precision_is_Some f (namesSink_trace f Hf)) as [p Hp].
  assert (levelled [f]) as Hsingle.
  { split_and!; [done|by constructor|]. exists p. by constructor. }
  destruct g as [|f0 rest]; simpl; [eauto|].
  destruct Hg as [?|(_ & Hns & p0 & Hp0)]; [done|].
  pose proof (Forall_inv Hp0) as Hf0. simpl in Hf0.
  destruct (moreSpecific_precision f f0 p p0 Hp Hf0) as (_ & _ & Heq & [ms Hms]).
  rewrite Hms. simpl.
  destruct (ms =? -1)%Z eqn:E1; [eauto|].
  destruct (ms =? 0)%Z eqn:E0.
  - apply Z.eqb_eq in E0 as ->. specialize (Heq Hms) as ->.
    eexists; split; [done|]. split_and!.
    + done.
    + apply (Forall_app _ (f0 :: rest) [f]); split; [done|by constructor].
    + exists p0. apply (Forall_app _ (f0 :: rest) [f]); split; [done|by constructor].
  - eexists; split; [done|]. split_and!; [done|done|by exists p0].
Qed.

(** A levelled group is homogeneous: a call stack that names its sink's
    function is at the function tier, like a one-frame function finding. *)
Lemma levelled_homogeneous (g : list govulncheck.Finding.t) :
  levelled g -> homogeneous g.
Proof.
  intros (_ & Hns & p & Hp) f1 f2 H1 H2.
  rewrite Forall_forall in Hns, Hp.
  assert (forall f, f ∈ g ->
            sinkTier f = Some (match p with 0 => ModuleTier | 1 => PackageTier | _ => FunctionTier end))
    as Htier.
  { intros f Hf. specialize (Hns f Hf). specialize (Hp f Hf).
    unfold precision, sinkTier, namesSink, tier in *.
    destruct (govulncheck.Finding.Trace f) as [|a [|a' t]]; simpl in *; [done| |].
    - destruct (nonEmpty (govulncheck.Frame.Function a)),
        (nonEmpty (govulncheck.Frame.Package a)); simpl in *; by simplify_eq.
    - rewrite Hns. by simplify_eq. }
  by rewrite (Htier f1), (Htier f2).
Qed.

Lemma step_levelled {W} (h : handler W) (c : call) :
  levelledGroups h ->
  (forall f, c = CallFinding f -> namesSink f) ->
  exists h', step h c = Some (h', None) /\ levelledGroups h' /\ w h' = w h.
Proof.
  intros Hinv Hc. destruct c as [c|p|e|f]; simpl; try (eexists; split; [done|done]).
  unfold Finding.
  destruct (submit_levelled (default [] (findings h !! govulncheck.Finding.OSV f)) f)
    as (g' & -> & Hg').
  - destruct (findings h !! govulncheck.Finding.OSV f) as [g|] eqn:E; simpl; [|by left].
    right. by eapply Hinv.
  - by apply Hc.
  - simpl. eexists; split; [done|]. split; [|done].
    intros id g. simpl. rewrite lookup_insert. case_decide; [|by apply Hinv].
    by intros [= <-].
Qed.

Lemma drive_levelled {W} (h : handler W) (cs : list call) :
  levelledGroups h ->
  (forall f, CallFinding f ∈ cs -> namesSink f) ->
  exists h', drive h cs = Some (h', None) /\ levelledGroups h' /\ w h' = w h.
Proof.
  revert h. induction cs as [|c cs IH]; intros h Hinv Hcs; simpl; [eauto|].
  destruct (step_levelled h c Hinv) as (h1 & -> & Hinv1 & Hw1).
  { intros f ->. apply Hcs. by left. }
  simpl. destruct (IH h1 Hinv1) as (h' & -> & Hinv' & Hw').
  { intros f Hf. apply Hcs. by right. }
  exists h'. split_and!; [done|done|congruence].
Qed.

(** C2, as the specification words it, fails where a trace has several
    frames.  The group holds one call stack whose sink frame stops at the
    package; a one-frame finding that names a function is above it in the
    tiers of the sink frames, and yet [moreSpecific] answers 1 and the
    finding is dropped. *)
Lemma monotonic_replacement_by_sink_tier_fails :
  ~ MonotonicReplacementAt (holding "V1" [stackWithoutFunction]) functionFinding.
Proof.
  intros Hspec.
  destruct (Hspec stackWithoutFunction [] FunctionTier PackageTier)
    as [Hmore _]; [reflexivity..|].
  destruct Hmore as (h' & Hrun & Hgroup); [simpl; lia|].
  vm_compute in Hrun. injection Hrun as <-.
  vm_compute in Hgroup. discriminate.
Qed.

(** C2, amended.  Levels are the ones [moreSpecific] tells apart: a trace
    of several frames (3) is above a one-frame function finding (2), which
    is above a package finding (1), which is above a module finding (0).  A
    finding above the first member of its group replaces the group; a
    finding below the first member leaves the handler as it was when that
    first member is a call stack or a function finding. *)
Theorem Finding_monotonic_replacement {W} (h : handler W)
    (f f0 : govulncheck.Finding.t) (rest : list govulncheck.Finding.t) (p p0 : nat) :
  findings h !! govulncheck.Finding.OSV f = Some (f0 :: rest) ->
  precision f = Some p -> precision f0 = Some p0 ->
  (p0 < p ->
   Finding h f
   = Some ({| w := w h; cfg := cfg h; osvs := osvs h;
              findings := <[govulncheck.Finding.OSV f := [f]]> (findings h) |}, None)) /\
  (p < p0 -> 2 <= p0 -> Finding h f = Some (h, None)).
Proof.
  intros Hg Hp Hp0.
  destruct (moreSpecific_precision f f0 p p0 Hp Hp0) as (Hmore & Hless & _ & _).
  unfold Finding, submit. rewrite Hg. simpl. split.
  - intros Hlt. by rewrite (Hmore Hlt).
  - intros Hlt Hp2. rewrite (Hless Hlt Hp2). simpl.
    rewrite insert_id by done. by destruct h.
Qed.

Lemma Finding_monotonic_replacement_witness :
  Finding (holding "V1" [moduleFinding]) packageFinding
  = Some ({| w := []; cfg := None; osvs := ∅;
             findings := <["V1" := [packageFinding]]> {[ "V1" := [moduleFinding] ]} |}, None) /\
  Finding (holding "V1" [functionFinding]) packageFinding
  = Some (holding "V1" [functionFinding], None).
Proof.
  split.
  - apply (Finding_monotonic_replacement (holding "V1" [moduleFinding])
             packageFinding moduleFinding [] 1 0); [reflexivity..|lia].
  - apply (Finding_monotonic_replacement (holding "V1" [functionFinding])
             packageFinding functionFinding [] 1 2); [reflexivity..|lia|lia].
Defined.

(** C3, as the specification words it, fails: two call stacks are equal
    for [moreSpecific] whatever their sink frames hold, so one whose sink
    names a function and one whose sink stops at the package end up in one
    group. *)
Lemma homogeneity_fails_for_call_stacks :
  ~ HomogeneityAfter [stackWithFunction; stackWithoutFunction].
Proof.
  intros Hspec.
  assert (forall f, f ∈ [stackWithFunction; stackWithoutFunction] ->
                    govulncheck.Finding.Trace f <> []) as Htraces.
  { intros f Hf. apply list_elem_of_In in Hf. simpl in Hf.
    destruct Hf as [<-|[<-|[]]]; discriminate. }
  assert (drive (NewHandler ([] : Buffer))
            (CallFinding <$> [stackWithFunction; stackWithoutFunction])
          = Some (holding "V1" [stackWithFunction; stackWithoutFunction], None)) as Hrun.
  { vm_compute. reflexivity. }
  assert (homogeneous [stackWithFunction; stackWithoutFunction]) as Hhom.
  { apply (Hspec Htraces _ _ Hrun "V1"). reflexivity. }
  specialize (Hhom stackWithFunction stackWithoutFunction).
  assert (sinkTier stackWithFunction = sinkTier stackWithoutFunction) as Habs.
  { apply Hhom; [by left|right; by left]. }
  discriminate Habs.
Qed.

(** C3, amended.  When every submitted finding has a trace, and every
    trace of several frames names a function in its sink frame (which is
    how the emitters build call stacks), no call panics and, after any
    sequence of calls, every group is non-empty and its members share one
    sink-frame tier. *)
Theorem drive_homogeneous {W} (w0 : W) (cs : list call) :
  (forall f, CallFinding f ∈ cs -> namesSink f) ->
  exists h, drive (NewHandler w0) cs = Some (h, None) /\
            forall id g, findings h !! id = Some g -> g <> [] /\ homogeneous g.
Proof.
  intros Hcs.
  destruct (drive_levelled (NewHandler w0) cs) as (h & Hrun & Hinv & _);
    [by intros id g; simpl; rewrite lookup_empty|done|].
  exists h. split; [done|]. intros id g Hg. split.
  - by destruct (Hinv id g Hg).
  - by eapply levelled_homogeneous, Hinv.
Qed.

Lemma drive_homogeneous_witness :
  exists h, drive (NewHandler ([] : Buffer))
              [CallFinding moduleFinding; CallFinding stackWithFunction;
               CallFinding packageFinding; CallFinding functionFinding]
            = Some (h, None) /\
            forall id g, findings h !! id = Some g -> g <> [] /\ homogeneous g.
Proof.
  apply (drive_homogeneous ([] : Buffer)
           [CallFinding moduleFinding; CallFinding stackWithFunction;
            CallFinding packageFinding; CallFinding functionFinding]).
  intros f Hf. apply list_elem_of_In in Hf. simpl in Hf.
  destruct Hf as [[= <-]|[[= <-]|[[= <-]|[[= <-]|[]]]]]; simpl; done.
Defined.

(** ** MessageComposer *)

Lemma uniqueElems_acc unit (fs : list govulncheck.Finding.t) (acc : gset string) :
  (forall f, f ∈ fs -> govulncheck.Finding.Trace f <> []) ->
  foldl (fun acc f => s ← acc; fr ← head (govulncheck.Finding.Trace f); Some ({[unit fr]} ∪ s))
        (Some acc) fs
  = Some (list_to_set (sinkUnits unit fs) ∪ acc).
Proof.
  revert acc. induction fs as [|f fs IH]; intros acc Hfs.
  - simpl. f_equal. set_solver.
  - destruct (govulncheck.Finding.Trace f) as [|fr tr] eqn:E.
    { exfalso. eapply Hfs; [by left|done]. }
    assert (sinkUnits unit (f :: fs) = unit fr :: sinkUnits unit fs) as ->.
    { unfold sinkUnits. simpl. by rewrite E. }
    cbn [foldl]. rewrite E. cbn [head mbind option_bind].
    rewrite IH by (intros; apply Hfs; by right).
    f_equal. set_solver.
Qed.

Lemma uniqueElems_spec unit (fs : list govulncheck.Finding.t) :
  (forall f, f ∈ fs -> govulncheck.Finding.Trace f <> []) ->
  uniqueElems unit fs = Some (list_to_set (sinkUnits unit fs)).
Proof.
  intros Hfs. unfold uniqueElems. rewrite uniqueElems_acc by done.
  f_equal. set_solver.
Qed.

Lemma elem_of_sinkUnits unit (fs : list govulncheck.Finding.t) (u : string) :
  u ∈ sinkUnits unit fs <->
  exists f fr, f ∈ fs /\ head (govulncheck.Finding.Trace f) = Some fr /\ u = unit fr.
Proof.
  unfold sinkUnits. rewrite list_elem_of_omap. split.
  - intros (f & Hf & Hu). destruct (head (govulncheck.Finding.Trace f)) as [fr|] eqn:E;
      simplify_eq/=. eauto.
  - intros (f & fr & Hf & Hfr & ->). exists f. split; [done|]. by rewrite Hfr.
Qed.

(** The sorted keys of [uniqueElems] do not depend on the order in which
    the map is visited. *)
Lemma sorted_elems_order_free (r : MapRange) (u : gset string) :
  Strings (range_elems r u) = Strings (elements u).
Proof.
  apply Strings_order_free; [apply range_elems_perm|].
  rewrite range_elems_perm. apply NoDup_elements.
Qed.

Lemma resultMessage_order_free (r1 r2 : MapRange) fs cfg :
  resultMessage r1 fs cfg = resultMessage r2 fs cfg.
Proof.
  unfold resultMessage.
  destruct (head fs) as [f0|]; simpl; [|done].
  destruct (head (govulncheck.Finding.Trace f0)) as [frame0|]; simpl; [|done].
  match goal with
  | |- (?u ≫= _) = (_ ≫= _) => destruct u as [uniq|]; simpl; [|done]
  end.
  by rewrite (sorted_elems_order_free r1), (sorted_elems_order_free r2).
Qed.

Lemma append_assoc (s1 s2 s3 : string) : (s1 +:+ s2) +:+ s3 = s1 +:+ (s2 +:+ s3).
Proof.
  induction s1 as [|a s1 IH]; [reflexivity|].
  change (String a ((s1 +:+ s2) +:+ s3) = String a (s1 +:+ (s2 +:+ s3))).
  by rewrite IH.
Qed.

Lemma append_nil_r (s : string) : s +:+ EmptyString = s.
Proof.
  induction s as [|a s IH]; [reflexivity|].
  change (String a (s +:+ EmptyString) = String a s). by rewrite IH.
Qed.

Lemma choose_plural (n : nat) : choose EmptyString "s" (n =? 1) = plural n.
Proof.
  unfold choose, plural. destruct (Nat.eqb_spec n 1); case_decide; done.
Qed.

Lemma unitsOf_sorted fr0 fs : StronglySorted strle (unitsOf fr0 fs).
Proof. apply Strings_sorted. Qed.

Lemma unitsOf_NoDup fr0 fs : NoDup (unitsOf fr0 fs).
Proof. unfold unitsOf. rewrite Strings_Permutation. apply NoDup_elements. Qed.

Lemma elem_of_unitsOf fr0 fs (u : string) :
  u ∈ unitsOf fr0 fs <->
  exists f fr, f ∈ fs /\ head (govulncheck.Finding.Trace f) = Some fr /\ u = unitOf fr0 fr.
Proof.
  unfold unitsOf. rewrite Strings_Permutation, elem_of_elements, elem_of_list_to_set.
  apply elem_of_sinkUnits.
Qed.

(** What [resultMessage] composes for a group whose members all have a
    trace. *)
Lemma resultMessage_spec (r : MapRange) (fs : list govulncheck.Finding.t)
    (cfg : govulncheck.Config.t) f0 rest fr0 tr0 :
  fs = f0 :: rest ->
  govulncheck.Finding.Trace f0 = fr0 :: tr0 ->
  (forall f, f ∈ fs -> govulncheck.Finding.Trace f <> []) ->
  resultMessage r fs (Some cfg)
  = Some (messageFor (tier fr0) (govulncheck.Config.ScanLevel cfg) (unitsOf fr0 fs)).
Proof.
  intros -> Htr Hfs. unfold resultMessage, unitsOf, unitOf, tier.
  cbn [head mbind option_bind]. rewrite Htr. cbn [head mbind option_bind].
  destruct (nonEmpty (govulncheck.Frame.Function fr0)) eqn:Efn;
    [|destruct (nonEmpty (govulncheck.Frame.Package fr0)) eqn:Epk];
    cbn [negb andb]; rewrite uniqueElems_spec by done;
    cbn [mbind option_bind]; rewrite sorted_elems_order_free;
    unfold messageFor, packageQualifier, moduleQualifier, list_, runCallAnalysis;
    rewrite choose_plural; unfold choose; f_equal;
    repeat (rewrite !append_assoc || rewrite append_nil_r).
  - reflexivity.
  - by destruct (govulncheck.ScanLevel.WantSymbols (govulncheck.Config.ScanLevel cfg)).
  - destruct (govulncheck.ScanLevel.WantSymbols (govulncheck.Config.ScanLevel cfg)),
      (govulncheck.ScanLevel.WantPackages (govulncheck.Config.ScanLevel cfg));
      repeat (rewrite !append_assoc || rewrite append_nil_r); reflexivity.
Qed.

(** C6.  For a group whose members all have a trace, the message holds
    the number of units, the noun with an "s" iff that number is not 1 (see
    [messageFor] and [plural]), and the units themselves: sorted, without
    duplicates, exactly the sink packages (the sink modules for a
    module-tier group) of the members, joined by a comma and a space.  Two
    function-level findings in packages a and b, in either order, give
    "Your code calls vulnerable functions in 2 packages (a, b).". *)
Theorem resultMessage_enumeration :
  (forall (r : MapRange) (fs : list govulncheck.Finding.t) (cfg : govulncheck.Config.t)
          f0 rest fr0 tr0,
     fs = f0 :: rest ->
     govulncheck.Finding.Trace f0 = fr0 :: tr0 ->
     (forall f, f ∈ fs -> govulncheck.Finding.Trace f <> []) ->
     exists units : list string,
       StronglySorted strle units /\ NoDup units /\
       (forall u, u ∈ units <->
                  exists f fr, f ∈ fs /\ head (govulncheck.Finding.Trace f) = Some fr /\
                               u = unitOf fr0 fr) /\
       resultMessage r fs (Some cfg)
       = Some (messageFor (tier fr0) (govulncheck.Config.ScanLevel cfg) units)) /\
  (forall (r : MapRange) (cfg : option govulncheck.Config.t),
     resultMessage r [finding "V2" [frame "m" "a" "F"]; finding "V2" [frame "m" "b" "G"]] cfg
     = Some "Your code calls vulnerable functions in 2 packages (a, b)." /\
     resultMessage r [finding "V2" [frame "m" "b" "G"]; finding "V2" [frame "m" "a" "F"]] cfg
     = Some "Your code calls vulnerable functions in 2 packages (a, b).").
Proof.
  split.
  - intros r fs cfg f0 rest fr0 tr0 Hfs Htr Htraces.
    exists (unitsOf fr0 fs). split_and!.
    + apply unitsOf_sorted.
    + apply unitsOf_NoDup.
    + apply elem_of_unitsOf.
    + by eapply resultMessage_spec.
  - intros r cfg. split; rewrite (resultMessage_order_free r rangeForward);
      vm_compute; reflexivity.
Qed.

Lemma resultMessage_enumeration_witness :
  exists units : list string,
    StronglySorted strle units /\ NoDup units /\
    (forall u, u ∈ units <->
               exists f fr, f ∈ [packageFinding; packageFinding] /\
                            head (govulncheck.Finding.Trace f) = Some fr /\
                            u = unitOf (frame "example.com/m" "example.com/m/p" EmptyString) fr) /\
    resultMessage rangeBackward [packageFinding; packageFinding]
      (Some (config (scanLevel false true)))
    = Some (messageFor PackageTier (scanLevel false true) units).
Proof.
  apply (proj1 resultMessage_enumeration rangeBackward [packageFinding; packageFinding]
           (config (scanLevel false true)) packageFinding [packageFinding]
           (frame "example.com/m" "example.com/m/p" EmptyString) []);
    [reflexivity|reflexivity|].
  intros f Hf. apply list_elem_of_In in Hf. simpl in Hf.
  destruct Hf as [<-|[<-|[]]]; discriminate.
Defined.

(** C7.  For a package-tier group under a configuration that asks for
    symbols, the message is the imports clause followed by a qualifier
    whose apostrophe is the typographic one (U+2019, three bytes), not the
    ASCII apostrophe that the specification and the module-tier branch of
    the same function spell.  Without symbols the message ends with the
    suggestion to run the call-level analysis. *)
Theorem resultMessage_package_qualifier (r : MapRange)
    (fs : list govulncheck.Finding.t) (cfg : govulncheck.Config.t) f0 rest fr0 tr0 :
  fs = f0 :: rest ->
  govulncheck.Finding.Trace f0 = fr0 :: tr0 ->
  (forall f, f ∈ fs -> govulncheck.Finding.Trace f <> []) ->
  tier fr0 = PackageTier ->
  let n := length (unitsOf fr0 fs) in
  let clause := "Your code imports " +:+ fmt_d n +:+ " vulnerable package" +:+ plural n
                  +:+ " (" +:+ String.concat ", " (unitsOf fr0 fs) +:+ ")" in
  (govulncheck.ScanLevel.WantSymbols (govulncheck.Config.ScanLevel cfg) = true ->
   resultMessage r fs (Some cfg)
   = Some (clause +:+ ", but doesn" +:+ rsquo +:+ "t appear to call any of the vulnerable symbols.") /\
   resultMessage r fs (Some cfg)
   <> Some (clause +:+ ", but doesn't appear to call any of the vulnerable symbols.")) /\
  (govulncheck.ScanLevel.WantSymbols (govulncheck.Config.ScanLevel cfg) = false ->
   resultMessage r fs (Some cfg) = Some (clause +:+ ". " +:+ runCallAnalysis)).
Proof.
  intros Hfs Htr Htraces Htier n clause.
  rewrite (resultMessage_spec r fs cfg f0 rest fr0 tr0 Hfs Htr Htraces), Htier.
  assert (forall q,
            messageFor PackageTier (govulncheck.Config.ScanLevel cfg) (unitsOf fr0 fs)
            = clause +:+ q
            <-> packageQualifier (govulncheck.Config.ScanLevel cfg) = q) as Hq.
  { intros q. unfold messageFor, clause. fold n.
    repeat rewrite append_assoc.
    split; [|by intros ->].
    intros H. repeat apply String.app_inj in H. exact H. }
  unfold packageQualifier in Hq. split; intros Hsym; rewrite Hsym in Hq.
  - split.
    + f_equal. by apply Hq.
    + intros H%(inj Some). apply Hq in H. vm_compute in H. discriminate H.
  - f_equal. by apply Hq.
Qed.

Lemma resultMessage_package_qualifier_witness :
  (resultMessage rangeForward [packageFinding] (Some (config (scanLevel true true)))
   = Some ("Your code imports 1 vulnerable package (example.com/m/p), but doesn"
             +:+ rsquo +:+ "t appear to call any of the vulnerable symbols.") /\
   resultMessage rangeForward [packageFinding] (Some (config (scanLevel true true)))
   <> Some "Your code imports 1 vulnerable package (example.com/m/p), but doesn't appear to call any of the vulnerable symbols.") /\
  resultMessage rangeForward [packageFinding] (Some (config (scanLevel false true)))
  = Some "Your code imports 1 vulnerable package (example.com/m/p). Run the call-level analysis to understand whether your code actually calls the vulnerabilities.".
Proof.
  assert (forall f, f ∈ [packageFinding] -> govulncheck.Finding.Trace f <> []) as Htraces.
  { intros f Hf. apply list_elem_of_In in Hf. simpl in Hf.
    destruct Hf as [<-|[]]. discriminate. }
  split.
  - apply (proj1 (resultMessage_package_qualifier rangeForward [packageFinding]
                    (config (scanLevel true true)) packageFinding []
                    (frame "example.com/m" "example.com/m/p" EmptyString) []
                    eq_refl eq_refl Htraces eq_refl)).
    reflexivity.
  - apply (proj2 (resultMessage_package_qualifier rangeForward [packageFinding]
                    (config (scanLevel false true)) packageFinding []
                    (frame "example.com/m" "example.com/m/p" EmptyString) []
                    eq_refl eq_refl Htraces eq_refl)).
    reflexivity.
Defined.

(** ** Flush *)

(** An error of the encoder is what [Flush] returns; nothing is written. *)
Lemma Flush_returns_encode_error {W} `{Writer W} (r : MapRange) (m : Marshaler)
    (h : handler W) (doc : Log.t) (s : string) (e : error) :
  toSarif r h = Some doc -> m doc EmptyString "  " = (s, Some e) ->
  Flush r m h = Some (h, Some e).
Proof. intros Hdoc Hm. unfold Flush. rewrite Hdoc. simpl. by rewrite Hm. Qed.

(** C8.  When the encoder succeeds, [Flush] hands the bytes to the sink
    and returns the nil error whatever the sink answers: an error of
    [Write] is dropped, where the specification has it returned to the
    caller (as the error of the encoder is, two lines above in the same
    function). *)
Theorem Flush_drops_write_error {W} `{Writer W} (r : MapRange) (m : Marshaler)
    (h : handler W) (doc : Log.t) (s : string) (w' : W) (n : nat) (e : error) :
  toSarif r h = Some doc ->
  m doc EmptyString "  " = (s, None) ->
  Write (w h) s = (w', (n, Some e)) ->
  Flush r m h
  = Some ({| w := w'; cfg := cfg h; osvs := osvs h; findings := findings h |}, None).
Proof.
  intros Hdoc Hm Hw. unfold Flush. rewrite Hdoc. simpl. by rewrite Hm, Hw.
Qed.

Lemma Flush_drops_write_error_witness :
  Flush rangeForward printLog
    {| w := broken "disk full"; cfg := Some (config (scanLevel true true));
       osvs := ∅; findings := ∅ |}
  = Some ({| w := broken "disk full"; cfg := Some (config (scanLevel true true));
             osvs := ∅; findings := ∅ |}, None).
Proof.
  apply (Flush_drops_write_error rangeForward printLog
           {| w := broken "disk full"; cfg := Some (config (scanLevel true true));
              osvs := ∅; findings := ∅ |}
           (emptyLog (config (scanLevel true true))) EmptyString
           (broken "disk full") 0 "disk full"); reflexivity.
Defined.

(** ** The report for no finding *)

Lemma lastConfig_cases (cs : list call) (c0 : option govulncheck.Config.t) :
  (lastConfig c0 cs = c0 /\ forall c, CallConfig c ∉ cs) \/
  (exists c, CallConfig c ∈ cs /\ lastConfig c0 cs = Some c).
Proof.
  revert c0. induction cs as [|a cs IH]; intros c0.
  - left. split; [done|]. intros c Hc. inv Hc.
  - destruct (IH (match a with CallConfig c => Some c | _ => c0 end))
      as [[Hlast Hnone]|(c & Hc & Hlast)].
    + destruct a as [c| | |];
        try (left; split; [done|]; intros c Hc; inv Hc; by eapply Hnone).
      right. exists c. split; [by left|done].
    + right. exists c. split; [by right|done].
Qed.

Lemma lastConfig_Some (cs : list call) (c0 : option govulncheck.Config.t) :
  (exists c, CallConfig c ∈ cs) ->
  exists c, CallConfig c ∈ cs /\ lastConfig c0 cs = Some c.
Proof.
  intros [c Hc]. destruct (lastConfig_cases cs c0) as [[_ Hnone]|Hsome]; [|done].
  by destruct (Hnone c).
Qed.

Lemma drive_without_findings {W} (cs : list call) (h : handler W) :
  (forall f, CallFinding f ∉ cs) ->
  exists h', drive h cs = Some (h', None) /\ findings h' = findings h /\
             w h' = w h /\ cfg h' = lastConfig (cfg h) cs.
Proof.
  revert h. induction cs as [|a cs IH]; intros h Hcs; [by exists h|].
  assert (forall f, CallFinding f ∉ cs) as Hcs'.
  { intros f Hf. apply (Hcs f). by right. }
  destruct a as [c|p|e|f].
  - destruct (IH (Config h c).1 Hcs') as (h' & Hd & ? & ? & ?). by exists h'.
  - destruct (IH h Hcs') as (h' & Hd & ? & ? & ?). by exists h'.
  - destruct (IH (OSV h e).1 Hcs') as (h' & Hd & ? & ? & ?). by exists h'.
  - destruct (Hcs f). by left.
Qed.

Lemma toSarif_empty {W} (r : MapRange) (h : handler W) (c : govulncheck.Config.t) :
  cfg h = Some c -> findings h = ∅ -> toSarif r h = Some (emptyLog c).
Proof.
  intros Hcfg Hfs. unfold toSarif, rules, results. rewrite Hcfg, Hfs. simpl.
  assert (range_rules r (list govulncheck.Finding.t) ∅ = []) as ->.
  { apply Permutation_nil_r. rewrite range_rules_perm. by rewrite map_to_list_empty. }
  assert (range_results r (list govulncheck.Finding.t) ∅ = []) as ->.
  { apply Permutation_nil_r. rewrite range_results_perm. by rewrite map_to_list_empty. }
  reflexivity.
Qed.

(** C10, as the specification words it, fails: [Flush] returns the error
    of the encoder when the encoder fails, also on the report for no
    finding. *)
Lemma empty_report_fails_when_encoding_fails :
  ~ EmptyReportAt rangeForward failingEncoder ([] : Buffer)
      [CallConfig (config (scanLevel true true))].
Proof.
  intros Hspec. destruct Hspec as (h & c & Hs & _).
  - exists (config (scanLevel true true)). left.
  - intros f Hf. apply list_elem_of_In in Hf. simpl in Hf.
    destruct Hf as [?|[]]; discriminate.
  - vm_compute in Hs. discriminate Hs.
Qed.

(** C10, amended.  After calls that include a [Config] call and no
    [Finding] call, no call has panicked or failed, the sink is untouched,
    and the document is the one of [emptyLog] for the configuration of the
    last [Config] call: version 2.1.0, the schema URI, one run that echoes
    the configuration, no rule and no result.  [Flush] hands that document
    to the encoder: when the encoder fails, [Flush] returns its error and
    leaves the handler and the sink as they were; otherwise it hands the
    encoded document to the sink and returns the nil error. *)
Theorem empty_report {W} `{Writer W} (r : MapRange) (m : Marshaler) (w0 : W)
    (cs : list call) :
  (exists c, CallConfig c ∈ cs) ->
  (forall f, CallFinding f ∉ cs) ->
  exists h c,
    CallConfig c ∈ cs /\ lastConfig None cs = Some c /\
    drive (NewHandler w0) cs = Some (h, None) /\
    w h = w0 /\
    toSarif r h = Some (emptyLog c) /\
    session r m w0 cs
    = match (m (emptyLog c) EmptyString "  ").2 with
      | Some e => Some (h, Some e)
      | None =>
          Some ({| w := (Write w0 (m (emptyLog c) EmptyString "  ").1).1;
                   cfg := Some c; osvs := osvs h; findings := ∅ |}, None)
      end.
Proof.
  intros Hcfg Hnone.
  destruct (drive_without_findings cs (NewHandler w0) Hnone)
    as (h & Hrun & Hfs & Hw & Hc).
  destruct (lastConfig_Some cs None Hcfg) as (c & Hin & Hlast).
  simpl in Hfs, Hw, Hc. rewrite Hlast in Hc.
  pose proof (toSarif_empty r h c Hc Hfs) as Hdoc.
  exists h, c. split_and!; try done.
  unfold session. rewrite Hrun. simpl.
  unfold Flush. rewrite Hdoc. simpl.
  destruct (m (emptyLog c) EmptyString "  ") as [s [e|]]; simpl; [done|].
  rewrite Hw, Hc, Hfs. by destruct (Write w0 s) as [w' [n err]].
Qed.

Lemma empty_report_witness :
  exists h c,
    CallConfig c ∈ [CallOSV (entry "V1" "summary"); CallConfig (config (scanLevel true true))] /\
    lastConfig None [CallOSV (entry "V1" "summary"); CallConfig (config (scanLevel true true))]
    = Some c /\
    drive (NewHandler ([] : Buffer))
      [CallOSV (entry "V1" "summary"); CallConfig (config (scanLevel true true))]
    = Some (h, None) /\
    w h = [] /\
    toSarif rangeForward h = Some (emptyLog c) /\
    session rangeForward printLog ([] : Buffer)
      [CallOSV (entry "V1" "summary"); CallConfig (config (scanLevel true true))]
    = Some ({| w := (Write ([] : Buffer) (printLog (emptyLog c) EmptyString "  ").1).1;
               cfg := Some c; osvs := osvs h; findings := ∅ |}, None).
Proof.
  apply (empty_report rangeForward printLog ([] : Buffer)
           [CallOSV (entry "V1" "summary"); CallConfig (config (scanLevel true true))]).
  - exists (config (scanLevel true true)). right. left.
  - intros f Hf. apply list_elem_of_In in Hf. simpl in Hf.
    destruct Hf as [?|[?|[]]]; discriminate.
Defined.

(** ** Determinism *)

(** *** Calls never fail *)

Lemma step_no_error {W} (h h' : handler W) (c : call) (e : option error) :
  step h c = Some (h', e) -> e = None.
Proof.
  destruct c; simpl; unfold Config, Progress, OSV, Finding; intros Hs;
    try by simplify_eq.
  destruct (submit _ _); by simplify_eq/=.
Qed.

Lemma drive_cons {W} (h : handler W) (c : call) (cs : list call) :
  drive h (c :: cs) = '(h', _) ← step h c; drive h' cs.
Proof.
  simpl. destruct (step h c) as [[h' e]|] eqn:E; [|done]. simpl.
  by rewrite (step_no_error _ _ _ _ E).
Qed.

(** *** The first element of a kind *)


(** *** The maps stay keyed *)

Lemma submit_head (g : list govulncheck.Finding.t) (f : govulncheck.Finding.t) g' id :
  govulncheck.Finding.OSV f = id ->
  (g = [] \/ exists f0 rest, g = f0 :: rest /\ govulncheck.Finding.OSV f0 = id) ->
  submit g f = Some g' ->
  exists f0 rest, g' = f0 :: rest /\ govulncheck.Finding.OSV f0 = id.
Proof.
  intros Hf [->|(f0 & rest & -> & Hf0)]; simpl.
  - intros [= <-]. eauto.
  - destruct (moreSpecific f f0) as [ms|]; simpl; [|done].
    destruct (ms =? -1)%Z; [intros [= <-]; eauto|].
    destruct (ms =? 0)%Z; intros [= <-]; eauto.
Qed.

Lemma step_keyed {W} (h h' : handler W) (c : call) (e : option error) :
  keyed h -> step h c = Some (h', e) -> keyed h'.
Proof.
  intros [Hfs Hos]. destruct c as [c|p|d|f]; simpl;
    unfold Config, Progress, OSV, Finding.
  - intros [= <- _]. by split.
  - intros [= <- _]. by split.
  - intros [= <- _]. split; [done|]. simpl. intros id d'.
    rewrite lookup_insert. case_decide; [|by apply Hos]. by intros [= <-].
  - destruct (submit _ f) as [g'|] eqn:Eg; simpl; [|done].
    intros [= <- _]. split; [|done]. simpl. intros id g.
    rewrite lookup_insert. case_decide as Hid; [|by apply Hfs].
    intros [= <-]. subst id. eapply submit_head; [done| |exact Eg].
    destruct (findings h !! govulncheck.Finding.OSV f) as [g|] eqn:E; simpl; [|by left].
    right. by apply Hfs.
Qed.

Lemma drive_keyed {W} (cs : list call) (h h' : handler W) (e : option error) :
  keyed h -> drive h cs = Some (h', e) -> keyed h'.
Proof.
  revert h. induction cs as [|c cs IH]; intros h Hk; simpl.
  - by intros [= <- _].
  - destruct (step h c) as [[h1 e1]|] eqn:E; simpl; [|done].
    pose proof (step_keyed _ _ _ _ Hk E) as Hk1.
    destruct e1; [by intros [= <- _]|]. by apply IH.
Qed.

Lemma NewHandler_keyed {W} (w0 : W) : keyed (NewHandler w0).
Proof. split; intros id x; simpl; by rewrite lookup_empty. Qed.

(** *** The document does not depend on the order in which maps are visited *)

Lemma mapM_Permutation {A B} (f : A -> option B) (l1 l2 : list A) :
  l1 ≡ₚ l2 ->
  match mapM f l1, mapM f l2 with
  | Some k1, Some k2 => k1 ≡ₚ k2
  | None, None => True
  | _, _ => False
  end.
Proof.
  induction 1 as [|x l1 l2 Hp IH|x y l|l1 l2 l3 Hp1 IH1 Hp2 IH2]; simpl.
  - done.
  - destruct (f x); simpl; [|done].
    destruct (mapM f l1), (mapM f l2); simpl; try done. by constructor.
  - destruct (f x), (f y); simpl; try done.
    destruct (mapM f l); simpl; [|done]. apply Permutation_swap.
  - destruct (mapM f l1), (mapM f l2), (mapM f l3); try done. by etrans.
Qed.

Lemma mapM_keys {A B} (f : A -> option B) (kA : A -> string) (kB : B -> string)
    (l : list A) (k : list B) :
  (forall x y, x ∈ l -> f x = Some y -> kB y = kA x) ->
  mapM f l = Some k -> kB <$> k = kA <$> l.
Proof.
  intros Hkey Hm. apply mapM_Some in Hm.
  induction Hm as [|x y l k Hxy Hm IH]; [done|]. simpl. f_equal.
  - apply Hkey; [by left|done].
  - apply IH. intros x' y' Hx'. apply Hkey. by right.
Qed.

(** Entries with distinct keys, mapped to items that keep the keys, then
    sorted by key: the order of the entries is forgotten. *)
Lemma sorted_mapM_order_free {A B} (f : A -> option B) (kA : A -> string)
    (kB : B -> string) (l1 l2 : list A) :
  l1 ≡ₚ l2 -> NoDup (kA <$> l1) ->
  (forall x y, x ∈ l1 -> f x = Some y -> kB y = kA x) ->
  (k ← mapM f l1; Some (SliceStable (fun x y => String.ltb (kB x) (kB y)) k))
  = (k ← mapM f l2; Some (SliceStable (fun x y => String.ltb (kB x) (kB y)) k)).
Proof.
  intros Hp Hnd Hkey. pose proof (mapM_Permutation f l1 l2 Hp) as Hm.
  destruct (mapM f l1) as [k1|] eqn:E1, (mapM f l2) as [k2|]; simpl; try done.
  f_equal. apply (SliceStable_order_free kB); [done|].
  by rewrite (mapM_keys f kA kB l1 k1 Hkey E1).
Qed.

Lemma rules_order_free {W} (r1 r2 : MapRange) (h : handler W) :
  keyed h -> rules r1 h = rules r2 h.
Proof.
  intros [_ Hos]. unfold rules.
  apply (sorted_mapM_order_free _ fst Rule.ID).
  - by rewrite !range_rules_perm.
  - rewrite range_rules_perm. apply NoDup_fst_map_to_list.
  - intros [id g] y _. unfold rule. simpl.
    destruct (osvs h !! id) as [d|] eqn:E; simpl; [|done].
    intros [= <-]. simpl. by apply Hos.
Qed.

Lemma result_order_free {W} (r1 r2 : MapRange) (h : handler W) fs :
  result r1 h fs = result r2 h fs.
Proof. unfold result. by rewrite (resultMessage_order_free r1 r2). Qed.

Lemma results_order_free {W} (r1 r2 : MapRange) (h : handler W) :
  keyed h -> results r1 h = results r2 h.
Proof.
  intros [Hfs _]. unfold results.
  rewrite (mapM_ext _ (fun kv => result r2 h kv.2) (range_results r1 _ (findings h)))
    by (intros; apply result_order_free).
  apply (sorted_mapM_order_free _ fst Result.RuleID).
  - by rewrite !range_results_perm.
  - rewrite range_results_perm. apply NoDup_fst_map_to_list.
  - intros [id g] y Hin. simpl.
    rewrite range_results_perm in Hin. apply elem_of_map_to_list in Hin.
    destruct (Hfs id g Hin) as (f0 & rest & -> & Hid).
    unfold result. simpl.
    destruct (level f0 (cfg h)); simpl; [|done].
    destruct (resultMessage r2 (f0 :: rest) (cfg h)); simpl; [|done].
    destruct (stacks (f0 :: rest)); simpl; [|done].
    by intros [= <-].
Qed.

Lemma toSarif_order_free {W} (r1 r2 : MapRange) (h : handler W) :
  keyed h -> toSarif r1 h = toSarif r2 h.
Proof.
  intros Hk. unfold toSarif.
  by rewrite (rules_order_free r1 r2 h Hk), (results_order_free r1 r2 h Hk).
Qed.


(** * Further properties of the handler *)

(** ** Groups, identifier by identifier *)

Lemma findingsFor_cons_finding (id : string) (f : govulncheck.Finding.t) (cs : list call) :
  findingsFor id (CallFinding f :: cs)
  = if decide (govulncheck.Finding.OSV f = id) then f :: findingsFor id cs
    else findingsFor id cs.
Proof. unfold findingsFor. simpl. by rewrite filter_cons. Qed.

Lemma findingsFor_cons_other (id : string) (c : call) (cs : list call) :
  (forall f, c <> CallFinding f) -> findingsFor id (c :: cs) = findingsFor id cs.
Proof. intros Hc. destruct c as [| | |f]; try done. by destruct (Hc f). Qed.

Lemma definitionsFor_cons_definition (id : string) (e : osv.Entry.t) (cs : list call) :
  definitionsFor id (CallOSV e :: cs)
  = if decide (osv.Entry.ID e = id) then e :: definitionsFor id cs
    else definitionsFor id cs.
Proof. unfold definitionsFor. simpl. by rewrite filter_cons. Qed.

Lemma definitionsFor_cons_other (id : string) (c : call) (cs : list call) :
  (forall e, c <> CallOSV e) -> definitionsFor id (c :: cs) = definitionsFor id cs.
Proof. intros Hc. destruct c as [| |e|]; try done. by destruct (Hc e). Qed.

Lemma elem_of_findingsFor (id : string) (f : govulncheck.Finding.t) (cs : list call) :
  f ∈ findingsFor id cs <-> CallFinding f ∈ cs /\ govulncheck.Finding.OSV f = id.
Proof.
  unfold findingsFor, findingsOf. rewrite list_elem_of_filter, list_elem_of_omap. split.
  - intros [Hid (c & Hc & Hf)]. destruct c; simplify_eq. done.
  - intros [Hc Hid]. split; [done|]. by exists (CallFinding f).
Qed.

Lemma elem_of_definitionsFor (id : string) (e : osv.Entry.t) (cs : list call) :
  e ∈ definitionsFor id cs <-> CallOSV e ∈ cs /\ osv.Entry.ID e = id.
Proof.
  unfold definitionsFor, definitionsOf. rewrite list_elem_of_filter, list_elem_of_omap. split.
  - intros [Hid (c & Hc & Hf)]. destruct c; simplify_eq. done.
  - intros [Hc Hid]. split; [done|]. by exists (CallOSV e).
Qed.

(** Calls never answer with an error. *)
Lemma drive_no_error {W} (cs : list call) (h h' : handler W) (e : option error) :
  drive h cs = Some (h', e) -> e = None.
Proof.
  revert h. induction cs as [|c cs IH]; intros h; simpl; [by intros [= _ <-]|].
  destruct (step h c) as [[h1 e1]|] eqn:E; simpl; [|done].
  rewrite (step_no_error _ _ _ _ E). apply IH.
Qed.

(** The group under [id] after the calls [cs] is built from the group
    before them and the findings for [id] alone. *)
Lemma drive_group {W} (cs : list call) (h h' : handler W) (e : option error) (id : string) :
  drive h cs = Some (h', e) ->
  submitAll (default [] (findings h !! id)) (findingsFor id cs)
  = Some (default [] (findings h' !! id)).
Proof.
  revert h. induction cs as [|c cs IH]; intros h; [by intros [= <- _]|].
  rewrite drive_cons. destruct (step h c) as [[h1 e1]|] eqn:E; [|done].
  simpl. intros Hd. specialize (IH h1 Hd).
  destruct c as [c|p|d|f]; simpl in E.
  - injection E as <- _. by rewrite findingsFor_cons_other.
  - injection E as <- _. by rewrite findingsFor_cons_other.
  - injection E as <- _. by rewrite findingsFor_cons_other.
  - unfold Finding in E.
    destruct (submit (default [] (findings h !! govulncheck.Finding.OSV f)) f)
      as [g1|] eqn:Eg; simpl in E; [|done].
    injection E as <- _. simpl in IH.
    rewrite findingsFor_cons_finding. case_decide as Hid.
    + subst id. simpl. rewrite Eg. simpl. by rewrite lookup_insert_eq in IH.
    + by rewrite lookup_insert_ne in IH.
Qed.

Lemma drive_group_present {W} (cs : list call) (h h' : handler W) (e : option error)
    (id : string) :
  drive h cs = Some (h', e) ->
  (is_Some (findings h' !! id) <-> is_Some (findings h !! id) \/ findingsFor id cs <> []).
Proof.
  revert h. induction cs as [|c cs IH]; intros h.
  - intros [= <- _]. unfold findingsFor. simpl. naive_solver.
  - rewrite drive_cons. destruct (step h c) as [[h1 e1]|] eqn:E; [|done].
    simpl. intros Hd. rewrite (IH h1 Hd).
    destruct c as [c|p|d|f]; simpl in E.
    + injection E as <- _. by rewrite findingsFor_cons_other.
    + injection E as <- _. by rewrite findingsFor_cons_other.
    + injection E as <- _. by rewrite findingsFor_cons_other.
    + unfold Finding in E. destruct (submit _ f) as [g1|]; simpl in E; [|done].
      injection E as <- _. simpl.
      rewrite findingsFor_cons_finding, lookup_insert. repeat case_decide; naive_solver.
Qed.

Lemma submit_not_nil (g g' : list govulncheck.Finding.t) (f : govulncheck.Finding.t) :
  submit g f = Some g' -> g' <> [].
Proof.
  destruct g as [|f0 rest]; simpl; [by intros [= <-]|].
  destruct (moreSpecific f f0) as [ms|]; simpl; [|done].
  destruct (ms =? -1)%Z; [by intros [= <-]|].
  destruct (ms =? 0)%Z; intros [= <-]; [|done]. by destruct rest.
Qed.

Lemma submitAll_not_nil (fs : list govulncheck.Finding.t) (g g' : list govulncheck.Finding.t) :
  submitAll g fs = Some g' -> g <> [] \/ fs <> [] -> g' <> [].
Proof.
  revert g. induction fs as [|f fs IH]; intros g; simpl.
  - intros [= <-] [?|?]; done.
  - destruct (submit g f) as [g1|] eqn:E; simpl; [|done].
    intros Hs _. apply (IH g1 Hs). left. by eapply submit_not_nil.
Qed.

Lemma submit_sublist (g g' : list govulncheck.Finding.t) (f : govulncheck.Finding.t) :
  submit g f = Some g' -> g' `sublist_of` g ++ [f].
Proof.
  destruct g as [|f0 rest]; simpl; [by intros [= <-]|].
  destruct (moreSpecific f f0) as [ms|]; simpl; [|done].
  destruct (ms =? -1)%Z.
  { intros [= <-]. apply (sublist_inserts_l (f0 :: rest) [f] [f]). done. }
  destruct (ms =? 0)%Z; intros [= <-]; [done|].
  apply (sublist_inserts_r [f] (f0 :: rest) (f0 :: rest)). done.
Qed.

Lemma submitAll_sublist (fs : list govulncheck.Finding.t) (g g' : list govulncheck.Finding.t) :
  submitAll g fs = Some g' -> g' `sublist_of` g ++ fs.
Proof.
  revert g. induction fs as [|f fs IH]; intros g; simpl.
  - intros [= <-]. by rewrite app_nil_r.
  - destruct (submit g f) as [g1|] eqn:E; simpl; [|done].
    intros Hs. etrans; [by apply IH|].
    rewrite (cons_middle f g fs), app_assoc.
    apply sublist_app; [by apply submit_sublist|done].
Qed.

(** X1.  After any calls on a fresh handler, the group under an identifier
    exists exactly when a finding was submitted for that identifier, and
    it is then the group that these findings alone build, one after the
    other, from the empty group: the calls about anything else, and their
    position among these findings, play no part. *)
Theorem group_from_own_findings {W} (w0 : W) (cs : list call) (h : handler W)
    (e : option error) (id : string) :
  drive (NewHandler w0) cs = Some (h, e) ->
  match findings h !! id with
  | None => findingsFor id cs = []
  | Some g => findingsFor id cs <> [] /\ submitAll [] (findingsFor id cs) = Some g
  end.
Proof.
  intros Hd.
  pose proof (drive_group cs _ _ e id Hd) as Hg.
  pose proof (drive_group_present cs _ _ e id Hd) as Hp.
  simpl in Hg, Hp. rewrite lookup_empty in Hg, Hp. simpl in Hg.
  destruct (findings h !! id) as [g|] eqn:E; simpl in *.
  - split; [|done]. destruct Hp as [Hp _].
    destruct (Hp (mk_is_Some _ _ eq_refl)) as [[? [=]]|?]; done.
  - destruct (findingsFor id cs) as [|f fs]; [done|].
    destruct Hp as [_ Hp]. destruct Hp as [? [=]]. by right.
Qed.

Lemma group_from_own_findings_witness :
  drive (NewHandler ([] : Buffer))
    [CallFinding moduleFinding;
     CallFinding (finding "V2" [frame "example.com/o" EmptyString EmptyString]);
     CallFinding packageFinding]
  = Some ({| w := []; cfg := None; osvs := ∅;
             findings := <["V1" := [packageFinding]]>
                           (<["V2" := [finding "V2" [frame "example.com/o" EmptyString EmptyString]]]>
                              (<["V1" := [moduleFinding]]> ∅)) |}, None) /\
  findingsFor "V1"
    [CallFinding moduleFinding;
     CallFinding (finding "V2" [frame "example.com/o" EmptyString EmptyString]);
     CallFinding packageFinding] <> [] /\
  submitAll []
    (findingsFor "V1"
       [CallFinding moduleFinding;
        CallFinding (finding "V2" [frame "example.com/o" EmptyString EmptyString]);
        CallFinding packageFinding]) = Some [packageFinding].
Proof.
  split; [reflexivity|].
  exact (group_from_own_findings ([] : Buffer)
           [CallFinding moduleFinding;
            CallFinding (finding "V2" [frame "example.com/o" EmptyString EmptyString]);
            CallFinding packageFinding]
           {| w := []; cfg := None; osvs := ∅;
              findings := <["V1" := [packageFinding]]>
                            (<["V2" := [finding "V2" [frame "example.com/o" EmptyString EmptyString]]]>
                               (<["V1" := [moduleFinding]]> ∅)) |}
           None "V1" eq_refl).
Defined.

Lemma drive_retained {W} (w0 : W) (cs : list call) (h : handler W)
    (e : option error) (id : string) (g : list govulncheck.Finding.t) :
  drive (NewHandler w0) cs = Some (h, e) ->
  findings h !! id = Some g ->
  g <> [] /\ g `sublist_of` findingsFor id cs.
Proof.
  intros Hd Hg. pose proof (drive_group cs _ _ e id Hd) as Hs.
  simpl in Hs. rewrite lookup_empty, Hg in Hs. simpl in Hs.
  pose proof (proj1 (drive_group_present cs _ _ e id Hd) (mk_is_Some _ _ Hg)) as Hp.
  simpl in Hp. rewrite lookup_empty in Hp.
  split; [|exact (submitAll_sublist _ _ _ Hs)].
  apply (submitAll_not_nil _ _ _ Hs). right. destruct Hp as [[? [=]]|?]; done.
Qed.

(** X2.  A group never holds anything but findings that were submitted for
    its identifier, in the order of their submission, and it is never
    empty. *)
Theorem retained_findings_sublist {W} (w0 : W) (cs : list call) (h : handler W)
    (e : option error) (id : string) (g : list govulncheck.Finding.t) :
  drive (NewHandler w0) cs = Some (h, e) ->
  findings h !! id = Some g ->
  g <> [] /\ g `sublist_of` findingsFor id cs /\
  forall f, f ∈ g -> CallFinding f ∈ cs /\ govulncheck.Finding.OSV f = id.
Proof.
  intros Hd Hg. destruct (drive_retained w0 cs h e id g Hd Hg) as [Hne Hsub].
  split_and!; [done|done|].
  intros f Hf. apply elem_of_findingsFor. by eapply elem_of_sublist.
Qed.

Lemma retained_findings_sublist_witness :
  [stackFromN; stackFromO] <> [] /\
  [stackFromN; stackFromO]
    `sublist_of` findingsFor "V1"
                   [CallFinding moduleFinding; CallFinding stackFromN;
                    CallFinding functionFinding; CallFinding stackFromO] /\
  forall f, f ∈ [stackFromN; stackFromO] ->
            CallFinding f ∈ [CallFinding moduleFinding; CallFinding stackFromN;
                             CallFinding functionFinding; CallFinding stackFromO] /\
            govulncheck.Finding.OSV f = "V1".
Proof.
  exact (retained_findings_sublist ([] : Buffer)
           [CallFinding moduleFinding; CallFinding stackFromN;
            CallFinding functionFinding; CallFinding stackFromO]
           (holding "V1" [stackFromN; stackFromO]) None "V1" [stackFromN; stackFromO]
           ltac:(vm_compute; reflexivity) ltac:(vm_compute; reflexivity)).
Defined.

(** ** Call stacks supersede everything else *)

Lemma submit_onto_call_stack (f0 f : govulncheck.Finding.t)
    (rest : list govulncheck.Finding.t) :
  isCallStack f0 ->
  submit (f0 :: rest) f = Some (if decide (isCallStack f) then (f0 :: rest) ++ [f] else f0 :: rest).
Proof.
  unfold isCallStack, submit, moreSpecific. intros H0.
  apply ltb_1_length in H0. rewrite H0.
  case_decide as Hf.
  - apply ltb_1_length in Hf. by rewrite Hf.
  - apply Nat.nlt_ge, ltb_1_length_false in Hf. by rewrite Hf.
Qed.

Lemma submitAll_onto_call_stack (fs : list govulncheck.Finding.t)
    (f0 : govulncheck.Finding.t) (rest : list govulncheck.Finding.t) :
  isCallStack f0 ->
  submitAll (f0 :: rest) fs = Some ((f0 :: rest) ++ filter isCallStack fs).
Proof.
  revert rest. induction fs as [|f fs IH]; intros rest H0; cbn [submitAll].
  - by rewrite app_nil_r.
  - rewrite submit_onto_call_stack by done. cbn [mbind option_bind].
    rewrite filter_cons. case_decide.
    + change ((f0 :: rest) ++ [f]) with (f0 :: (rest ++ [f])).
      rewrite IH by done. f_equal. simpl. by rewrite <- app_assoc.
    + by rewrite IH.
Qed.

Lemma submit_call_stack_onto_flat (g : list govulncheck.Finding.t)
    (f : govulncheck.Finding.t) :
  startsFlat g -> isCallStack f -> submit g f = Some [f].
Proof.
  destruct g as [|f0 rest]; [done|]. unfold startsFlat, isCallStack, submit, moreSpecific.
  intros H0 Hf. apply Nat.nlt_ge, ltb_1_length_false in H0. apply ltb_1_length in Hf.
  by rewrite H0, Hf.
Qed.

Lemma submit_flat_onto_flat (g g' : list govulncheck.Finding.t)
    (f : govulncheck.Finding.t) :
  startsFlat g -> ~ isCallStack f -> submit g f = Some g' -> startsFlat g'.
Proof.
  destruct g as [|f0 rest]; simpl; [by intros _ ? [= <-]|].
  intros H0 Hf. destruct (moreSpecific f f0) as [ms|]; simpl; [|done].
  destruct (ms =? -1)%Z; [by intros [= <-]|].
  destruct (ms =? 0)%Z; by intros [= <-].
Qed.

Lemma submitAll_first_call_stack (fs : list govulncheck.Finding.t)
    (g g' : list govulncheck.Finding.t) :
  startsFlat g -> submitAll g fs = Some g' ->
  (exists f, f ∈ fs /\ isCallStack f) ->
  g' = filter isCallStack fs.
Proof.
  revert g. induction fs as [|f fs IH]; intros g Hg Hs [f' [Hin Hf']]; [by inv Hin|].
  cbn [submitAll] in Hs. rewrite filter_cons. case_decide as Hf.
  - rewrite (submit_call_stack_onto_flat g f Hg Hf) in Hs. cbn [mbind option_bind] in Hs.
    rewrite (submitAll_onto_call_stack fs f [] Hf) in Hs. by injection Hs as <-.
  - destruct (submit g f) as [g1|] eqn:E; simpl in Hs; [|done].
    apply (IH g1); [by eapply submit_flat_onto_flat|done|].
    exists f'. split; [|done]. inv Hin; done.
Qed.

(** X3.  As soon as one finding with a trace of several frames has been
    submitted for an identifier, the group of that identifier is exactly
    the findings with several frames submitted for it, all of them and in
    the order of their submission; every one-frame finding for the
    identifier is gone, whenever it came. *)
Theorem call_stacks_supersede {W} (w0 : W) (cs : list call) (h : handler W)
    (e : option error) (id : string) :
  drive (NewHandler w0) cs = Some (h, e) ->
  (exists f, f ∈ findingsFor id cs /\ isCallStack f) ->
  findings h !! id = Some (filter isCallStack (findingsFor id cs)).
Proof.
  intros Hd Hex.
  pose proof (group_present := drive_group_present cs _ _ e id Hd).
  pose proof (drive_group cs _ _ e id Hd) as Hs.
  simpl in Hs, group_present. rewrite lookup_empty in Hs, group_present. simpl in Hs.
  destruct (findings h !! id) as [g|] eqn:E.
  - simpl in Hs. f_equal. by apply (submitAll_first_call_stack _ [] g).
  - destruct Hex as (f & Hf & _). destruct group_present as [_ Hp].
    destruct Hp as [? [=]]. right. intros Hnil. rewrite Hnil in Hf. inv Hf.
Qed.

Lemma call_stacks_supersede_witness :
  findings (holding "V1" [stackFromN; stackFromO]) !! "V1"
  = Some (filter isCallStack
            (findingsFor "V1"
               [CallFinding functionFinding; CallFinding stackFromN;
                CallFinding moduleFinding; CallFinding stackFromO;
                CallFinding packageFinding])).
Proof.
  apply (call_stacks_supersede ([] : Buffer)
           [CallFinding functionFinding; CallFinding stackFromN;
            CallFinding moduleFinding; CallFinding stackFromO;
            CallFinding packageFinding]
           (holding "V1" [stackFromN; stackFromO]) None "V1").
  - vm_compute. reflexivity.
  - exists stackFromN. split; [|unfold isCallStack; simpl; lia].
    apply elem_of_findingsFor. split; [|done]. right. left.
Defined.

(** ** The resolver on its own *)

(** X4.  On two findings that both have a trace, [moreSpecific] does not
    panic and answers -1, 0 or 1.  Swapping the arguments negates the
    answer, except when both traces have one frame, the two sink frames
    agree on whether they name a function and disagree on whether they
    name a package: there the answer is -1 in both orders. *)
Theorem moreSpecific_swap (f1 f2 : govulncheck.Finding.t)
    (fr1 fr2 : govulncheck.Frame.t) (tr1 tr2 : list govulncheck.Frame.t) :
  govulncheck.Finding.Trace f1 = fr1 :: tr1 ->
  govulncheck.Finding.Trace f2 = fr2 :: tr2 ->
  let exception :=
    tr1 = [] /\ tr2 = [] /\
    nonEmpty (govulncheck.Frame.Function fr1) = nonEmpty (govulncheck.Frame.Function fr2) /\
    nonEmpty (govulncheck.Frame.Package fr1) <> nonEmpty (govulncheck.Frame.Package fr2) in
  exists a b : Z,
    moreSpecific f1 f2 = Some a /\ moreSpecific f2 f1 = Some b /\
    (a = -1 \/ a = 0 \/ a = 1)%Z /\
    (exception -> a = (-1)%Z /\ b = (-1)%Z) /\
    (~ exception -> b = (- a)%Z).
Proof.
  intros H1 H2 exception. subst exception. unfold moreSpecific. rewrite H1, H2.
  destruct tr1 as [|a1 tr1], tr2 as [|a2 tr2]; simpl;
    try (eexists _, _; split; [reflexivity|]; split; [reflexivity|]; split; [auto|];
         split; [by intros (? & ? & _)|done]).
  destruct (nonEmpty (govulncheck.Frame.Function fr1)),
    (nonEmpty (govulncheck.Frame.Function fr2)),
    (nonEmpty (govulncheck.Frame.Package fr1)),
    (nonEmpty (govulncheck.Frame.Package fr2)); simpl;
    eexists _, _; (split; [reflexivity|]; split; [reflexivity|]; split; [auto|]);
    (split; [try done; by intros (_ & _ & ? & ?)|]);
    try done; intros Hd; exfalso; apply Hd; done.
Qed.

Lemma moreSpecific_swap_witness :
  (exists a b : Z,
     moreSpecific functionFinding stackFromN = Some a /\
     moreSpecific stackFromN functionFinding = Some b /\
     (a = -1 \/ a = 0 \/ a = 1)%Z /\ b = (- a)%Z) /\
  (exists a b : Z,
     moreSpecific moduleFinding packageFinding = Some a /\
     moreSpecific packageFinding moduleFinding = Some b /\
     a = (-1)%Z /\ b = (-1)%Z).
Proof.
  split.
  - destruct (moreSpecific_swap functionFinding stackFromN _ _ [] [_] eq_refl eq_refl)
      as (a & b & Ha & Hb & Hr & _ & Hn).
    exists a, b. split_and!; [done|done|done|]. apply Hn. by intros (_ & [=] & _).
  - destruct (moreSpecific_swap moduleFinding packageFinding _ _ [] [] eq_refl eq_refl)
      as (a & b & Ha & Hb & _ & Hx & _).
    exists a, b. split_and!; [done|done|apply Hx..]; split_and!; done.
Defined.

Lemma moreSpecific_refl (f : govulncheck.Finding.t) :
  govulncheck.Finding.Trace f <> [] -> moreSpecific f f = Some 0%Z.
Proof.
  unfold moreSpecific. destruct (govulncheck.Finding.Trace f) as [|a [|a' t]]; [done| |done].
  intros _. simpl.
  by destruct (nonEmpty (govulncheck.Frame.Function a)),
       (nonEmpty (govulncheck.Frame.Package a)).
Qed.

(** X5.  The aggregator does not look for duplicates: a finding that is
    already the first member of its group is appended to the group once
    more. *)
Theorem Finding_resubmitted_is_appended {W} (h : handler W) (f : govulncheck.Finding.t)
    (rest : list govulncheck.Finding.t) :
  govulncheck.Finding.Trace f <> [] ->
  findings h !! govulncheck.Finding.OSV f = Some (f :: rest) ->
  Finding h f
  = Some ({| w := w h; cfg := cfg h; osvs := osvs h;
             findings := <[govulncheck.Finding.OSV f := f :: rest ++ [f]]> (findings h) |},
          None).
Proof.
  intros Htr Hg. unfold Finding, submit. rewrite Hg. simpl.
  by rewrite (moreSpecific_refl f Htr).
Qed.

Lemma Finding_resubmitted_is_appended_witness :
  Finding (holding "V1" [packageFinding]) packageFinding
  = Some (holding "V1" [packageFinding; packageFinding], None).
Proof.
  rewrite (Finding_resubmitted_is_appended (holding "V1" [packageFinding])
             packageFinding []); [|discriminate|reflexivity].
  vm_compute. reflexivity.
Defined.

(** ** Definitions *)

Lemma drive_osvs {W} (cs : list call) (h h' : handler W) (e : option error) (id : string) :
  drive h cs = Some (h', e) ->
  osvs h' !! id
  = match last (definitionsFor id cs) with Some d => Some d | None => osvs h !! id end.
Proof.
  revert h. induction cs as [|c cs IH]; intros h; [by intros [= <- _]|].
  rewrite drive_cons. destruct (step h c) as [[h1 e1]|] eqn:E; [|done].
  simpl. intros Hd. rewrite (IH h1 Hd).
  destruct c as [c|p|d|f]; simpl in E.
  - injection E as <- _. by rewrite definitionsFor_cons_other.
  - injection E as <- _. by rewrite definitionsFor_cons_other.
  - injection E as <- _. simpl. rewrite definitionsFor_cons_definition.
    case_decide as Hid.
    + subst id. rewrite last_cons, lookup_insert_eq.
      by destruct (last (definitionsFor (osv.Entry.ID d) cs)).
    + by rewrite lookup_insert_ne.
  - unfold Finding in E. destruct (submit _ f) as [g1|]; simpl in E; [|done].
    injection E as <- _. by rewrite definitionsFor_cons_other.
Qed.

(** X6.  After any calls on a fresh handler, the definition held for an
    identifier is the last one submitted with that identifier, and none is
    held when none was submitted: a later definition silently replaces an
    earlier one. *)
Theorem definitions_last_wins {W} (w0 : W) (cs : list call) (h : handler W)
    (e : option error) (id : string) :
  drive (NewHandler w0) cs = Some (h, e) ->
  osvs h !! id = last (definitionsFor id cs).
Proof.
  intros Hd. rewrite (drive_osvs cs _ _ e id Hd). simpl. rewrite lookup_empty.
  by destruct (last (definitionsFor id cs)).
Qed.

Lemma definitions_last_wins_witness :
  osvs {| w := ([] : Buffer); cfg := None;
          osvs := <["V1" := entry "V1" "second"]> (<["V2" := entry "V2" "other"]>
                    (<["V1" := entry "V1" "first"]> ∅));
          findings := ∅ |} !! "V1"
  = last (definitionsFor "V1"
            [CallOSV (entry "V1" "first"); CallOSV (entry "V2" "other");
             CallOSV (entry "V1" "second")]).
Proof.
  apply (definitions_last_wins ([] : Buffer)
           [CallOSV (entry "V1" "first"); CallOSV (entry "V2" "other");
            CallOSV (entry "V1" "second")] _ None "V1").
  reflexivity.
Defined.

(** ** When a run panics and when it does not *)

Lemma drive_cfg {W} (cs : list call) (h h' : handler W) (e : option error) :
  drive h cs = Some (h', e) -> cfg h' = lastConfig (cfg h) cs /\ w h' = w h.
Proof.
  revert h. induction cs as [|c cs IH]; intros h; [by intros [= <- _]|].
  rewrite drive_cons. destruct (step h c) as [[h1 e1]|] eqn:E; [|done].
  simpl. intros Hd. destruct (IH h1 Hd) as [-> ->].
  destruct c as [c|p|d|f]; simpl in E; try (by injection E as <- _).
  unfold Finding in E. destruct (submit _ f) as [g1|]; simpl in E; [|done].
  by injection E as <- _.
Qed.

(** X7.  A run in which [Config] was never called panics: either a call
    panics, or [Flush] dereferences the nil configuration. *)
Theorem session_panics_without_Config {W} `{Writer W} (r : MapRange) (m : Marshaler)
    (w0 : W) (cs : list call) :
  (forall c, CallConfig c ∉ cs) -> session r m w0 cs = None.
Proof.
  intros Hnone. unfold session.
  destruct (drive (NewHandler w0) cs) as [[h e]|] eqn:Hd; [|done]. simpl.
  rewrite (drive_no_error _ _ _ _ Hd).
  destruct (drive_cfg _ _ _ _ Hd) as [Hc _]. simpl in Hc.
  destruct (lastConfig_cases cs None) as [[Hlast _]|(c & Hin & _)];
    [|by destruct (Hnone c)].
  unfold Flush, toSarif. by rewrite Hc, Hlast.
Qed.

Lemma session_panics_without_Config_witness :
  session rangeForward printLog ([] : Buffer)
    [CallOSV (entry "V1" "summary"); CallFinding functionFinding] = None.
Proof.
  apply (session_panics_without_Config rangeForward printLog ([] : Buffer)).
  intros c Hc. apply list_elem_of_In in Hc. simpl in Hc.
  destruct Hc as [?|[?|[]]]; discriminate.
Defined.

(** X8.  A run that holds a finding for an identifier that was never
    defined panics: if nothing panics before, building the rule of that
    identifier dereferences the nil definition. *)
Theorem session_panics_on_undefined_identifier {W} `{Writer W} (r : MapRange)
    (m : Marshaler) (w0 : W) (cs : list call) (f : govulncheck.Finding.t) :
  CallFinding f ∈ cs ->
  (forall d, CallOSV d ∈ cs -> osv.Entry.ID d <> govulncheck.Finding.OSV f) ->
  session r m w0 cs = None.
Proof.
  intros Hf Hundef. unfold session.
  destruct (drive (NewHandler w0) cs) as [[h e]|] eqn:Hd; [|done]. simpl.
  rewrite (drive_no_error _ _ _ _ Hd).
  assert (is_Some (findings h !! govulncheck.Finding.OSV f)) as [g Hg].
  { apply (drive_group_present cs _ _ e _ Hd). right. intros Hnil.
    assert (f ∈ findingsFor (govulncheck.Finding.OSV f) cs) as Hin
      by by apply elem_of_findingsFor.
    rewrite Hnil in Hin. inv Hin. }
  assert (osvs h !! govulncheck.Finding.OSV f = None) as Hos.
  { rewrite (drive_osvs cs _ _ e _ Hd). simpl. rewrite lookup_empty.
    destruct (last (definitionsFor (govulncheck.Finding.OSV f) cs)) as [d|] eqn:El; [|done].
    apply last_Some_elem_of, elem_of_definitionsFor in El as [Hin Hid].
    by destruct (Hundef d Hin). }
  assert (rules r h = None) as Hrules.
  { unfold rules.
    assert (mapM (fun kv : string * list govulncheck.Finding.t => rule (osvs h) kv.1)
              (range_rules r _ (findings h)) = None) as ->; [|done].
    apply mapM_None, Exists_exists. exists (govulncheck.Finding.OSV f, g). split.
    - rewrite range_rules_perm. by apply elem_of_map_to_list.
    - unfold rule. simpl. by rewrite Hos. }
  unfold Flush, toSarif. rewrite Hrules. by destruct (cfg h).
Qed.

Lemma session_panics_on_undefined_identifier_witness :
  session rangeForward printLog ([] : Buffer)
    [CallConfig (config (scanLevel true true)); CallOSV (entry "V2" "summary");
     CallFinding functionFinding] = None.
Proof.
  apply (session_panics_on_undefined_identifier rangeForward printLog ([] : Buffer) _
           functionFinding).
  - right. right. left.
  - intros d Hd. apply list_elem_of_In in Hd. simpl in Hd.
    destruct Hd as [?|[[= <-]|[?|[]]]]; discriminate.
Defined.

Lemma moreSpecific_is_Some (f f0 : govulncheck.Finding.t) :
  hasTrace f -> hasTrace f0 -> is_Some (moreSpecific f f0).
Proof.
  unfold hasTrace, moreSpecific.
  destruct (govulncheck.Finding.Trace f) as [|a t]; [done|].
  destruct (govulncheck.Finding.Trace f0) as [|a0 t0]; [done|]. intros _ _.
  repeat match goal with
         | |- context [if ?b then _ else _] => destruct b
         end; simpl; eauto.
  repeat match goal with
         | |- context [if ?b then _ else _] => destruct b
         end; eauto.
Qed.

Lemma submit_traced (g : list govulncheck.Finding.t) (f : govulncheck.Finding.t) :
  Forall hasTrace g -> hasTrace f ->
  exists g', submit g f = Some g' /\ Forall hasTrace g'.
Proof.
  intros Hg Hf. destruct g as [|f0 rest]; simpl.
  { eexists; split; [done|]. by constructor. }
  destruct (moreSpecific_is_Some f f0 Hf (Forall_inv Hg)) as [ms ->]. simpl.
  destruct (ms =? -1)%Z; [eexists; split; [done|]; by constructor|].
  destruct (ms =? 0)%Z; eexists; (split; [done|]); [|done].
  apply (Forall_app _ (f0 :: rest) [f]). split; [done|by constructor].
Qed.

Lemma drive_traced {W} (cs : list call) (h : handler W) :
  tracedGroups h ->
  (forall f, CallFinding f ∈ cs -> hasTrace f) ->
  exists h', drive h cs = Some (h', None) /\ tracedGroups h'.
Proof.
  revert h. induction cs as [|c cs IH]; intros h Hinv Hcs; [by exists h|].
  assert (exists h1, step h c = Some (h1, None) /\ tracedGroups h1) as (h1 & Hs & Hinv1).
  { destruct c as [c|p|d|f]; simpl; try (by eexists).
    unfold Finding.
    destruct (submit_traced (default [] (findings h !! govulncheck.Finding.OSV f)) f)
      as (g' & -> & Hg').
    - destruct (findings h !! govulncheck.Finding.OSV f) as [g|] eqn:E; simpl; [|done].
      by eapply Hinv.
    - apply Hcs. by left.
    - simpl. eexists; split; [done|]. intros id g. simpl.
      rewrite lookup_insert. case_decide; [|by apply Hinv]. by intros [= <-]. }
  destruct (IH h1 Hinv1) as (h' & Hd & Hinv').
  { intros f Hf. apply Hcs. by right. }
  exists h'. split; [|done]. simpl. by rewrite Hs.
Qed.

Lemma stacks_is_Some (g : list govulncheck.Finding.t) :
  g <> [] -> Forall hasTrace g -> is_Some (stacks g).
Proof.
  intros Hne Hg.
  assert (is_Some (mapM stack g)) as [ss Hss].
  { apply mapM_is_Some. eapply Forall_impl; [exact Hg|].
    intros f Hf. unfold hasTrace in Hf. simpl. unfold stack.
    destruct (govulncheck.Finding.Trace f); [done|]. simpl. eauto. }
  unfold stacks. destruct g as [|f0 rest]; [done|]. cbn [head mbind option_bind].
  pose proof (Forall_inv Hg) as H0. unfold hasTrace in H0.
  destruct (govulncheck.Finding.Trace f0) as [|fr tr]; [done|].
  cbn [head mbind option_bind].
  destruct (nonEmpty (govulncheck.Frame.Function fr)); cbn [negb]; [|eauto].
  rewrite Hss. simpl. eauto.
Qed.

Lemma level_is_Some (f : govulncheck.Finding.t) (c : govulncheck.Config.t) :
  hasTrace f -> is_Some (level f (Some c)).
Proof.
  unfold hasTrace, level. destruct (govulncheck.Finding.Trace f) as [|fr tr]; [done|].
  intros _. simpl.
  repeat match goal with
         | |- context [if ?b then _ else _] => destruct b
         end; eauto.
Qed.

Lemma result_is_Some {W} (r : MapRange) (h : handler W) (c : govulncheck.Config.t)
    (g : list govulncheck.Finding.t) :
  cfg h = Some c -> g <> [] -> Forall hasTrace g -> is_Some (result r h g).
Proof.
  intros Hc Hne Hg. unfold result. destruct g as [|f0 rest]; [done|]. simpl.
  pose proof (Forall_inv Hg) as H0.
  destruct (level_is_Some f0 c H0) as [lvl Hlvl].
  unfold hasTrace in H0.
  destruct (govulncheck.Finding.Trace f0) as [|fr tr] eqn:E0; [done|].
  rewrite Hc, Hlvl. simpl.
  rewrite (resultMessage_spec r (f0 :: rest) c f0 rest fr tr eq_refl E0)
    by (intros f Hf; rewrite Forall_forall in Hg; by apply Hg).
  simpl. destruct (stacks_is_Some (f0 :: rest) Hne Hg) as [ss ->]. simpl. eauto.
Qed.

(** X9.  A run does not panic when [Config] was called, every submitted
    finding has a trace, and every submitted finding has its identifier
    defined by some [OSV] call (before or after the finding): every call
    returns the nil error, the document is built, and [Flush] returns. *)
Theorem session_does_not_panic {W} `{Writer W} (r : MapRange) (m : Marshaler)
    (w0 : W) (cs : list call) :
  (exists c, CallConfig c ∈ cs) ->
  (forall f, CallFinding f ∈ cs ->
             hasTrace f /\
             exists d, CallOSV d ∈ cs /\ osv.Entry.ID d = govulncheck.Finding.OSV f) ->
  exists h doc,
    drive (NewHandler w0) cs = Some (h, None) /\
    toSarif r h = Some doc /\
    is_Some (session r m w0 cs).
Proof.
  intros Hcfg Hfs.
  destruct (drive_traced cs (NewHandler w0)) as (h & Hd & Htr).
  { intros id g. simpl. by rewrite lookup_empty. }
  { intros f Hf. by apply Hfs. }
  destruct (drive_cfg _ _ _ _ Hd) as [Hc _]. simpl in Hc.
  destruct (lastConfig_Some cs None Hcfg) as (c & _ & Hlast). rewrite Hlast in Hc.
  assert (forall id g, findings h !! id = Some g -> g <> [] /\ is_Some (osvs h !! id))
    as Hgroups.
  { intros id g Hg.
    destruct (drive_retained w0 cs h None id g Hd Hg) as (Hne & Hsub).
    split; [done|].
    destruct g as [|f0 rest]; [done|].
    assert (f0 ∈ findingsFor id cs) as Hin by (eapply elem_of_sublist; [by left|done]).
    apply elem_of_findingsFor in Hin as [Hin Hid].
    destruct (Hfs f0 Hin) as (_ & d & Hdin & Hdid).
    rewrite (drive_osvs cs _ _ None id Hd). simpl.
    destruct (last (definitionsFor id cs)) as [d'|] eqn:El; [eauto|].
    apply last_None in El.
    assert (d ∈ definitionsFor id cs) as Hd' by (apply elem_of_definitionsFor; split; congruence).
    rewrite El in Hd'. inv Hd'. }
  assert (is_Some (rules r h)) as [rls Hrls].
  { unfold rules.
    assert (is_Some (mapM (fun kv : string * list govulncheck.Finding.t => rule (osvs h) kv.1)
                       (range_rules r _ (findings h)))) as [rs ->]; [|simpl; eauto].
    apply mapM_is_Some, Forall_forall. intros [id g] Hin. simpl.
    rewrite range_rules_perm in Hin. apply elem_of_map_to_list in Hin.
    destruct (Hgroups id g Hin) as [_ [d Hdef]]. unfold rule. rewrite Hdef. simpl. eauto. }
  assert (is_Some (results r h)) as [res Hres].
  { unfold results.
    assert (is_Some (mapM (fun kv : string * list govulncheck.Finding.t => result r h kv.2)
                       (range_results r _ (findings h)))) as [rs ->]; [|simpl; eauto].
    apply mapM_is_Some, Forall_forall. intros [id g] Hin. simpl.
    rewrite range_results_perm in Hin. apply elem_of_map_to_list in Hin.
    destruct (Hgroups id g Hin) as [Hne _].
    eapply result_is_Some; [done|done|by eapply Htr]. }
  assert (exists doc, toSarif r h = Some doc) as [doc Hdoc].
  { unfold toSarif. rewrite Hc, Hrls, Hres. simpl. eauto. }
  exists h, doc. split_and!; [done|done|].
  unfold session. rewrite Hd. simpl. unfold Flush. rewrite Hdoc. simpl.
  destruct (m doc EmptyString "  ") as [s [err|]]; [eauto|].
  destruct (Write (w h) s) as [w' ?]. eauto.
Qed.

Lemma session_does_not_panic_witness :
  exists h doc,
    drive (NewHandler ([] : Buffer))
      [CallFinding stackFromN; CallConfig (config (scanLevel true true));
       CallOSV (entry "V1" "summary")] = Some (h, None) /\
    toSarif rangeBackward h = Some doc /\
    is_Some (session rangeBackward printLog ([] : Buffer)
               [CallFinding stackFromN; CallConfig (config (scanLevel true true));
                CallOSV (entry "V1" "summary")]).
Proof.
  apply (session_does_not_panic rangeBackward printLog ([] : Buffer)).
  - exists (config (scanLevel true true)). right. left.
  - intros f Hf. apply list_elem_of_In in Hf. simpl in Hf.
    destruct Hf as [[= <-]|[?|[?|[]]]]; try discriminate.
    split; [discriminate|]. exists (entry "V1" "summary"). split; [|done].
    right. right. left.
Defined.

(** ** Flush *)

(** X10.  [Flush] does not use the handler up.  On a handler whose maps
    are keyed by identifier (as every handler reached from a fresh one
    is), a [Flush] that returned an error has left the handler as it was,
    and a second [Flush] returns the same error; after a [Flush] that
    returned the nil error the configuration, the definitions and the
    groups are as before, and a second [Flush], whatever the order in which
    the maps are visited this time, encodes the same document, hands the
    sink the same bytes once more and returns the nil error. *)
Theorem Flush_repeatable {W} `{Writer W} (r1 r2 : MapRange) (m : Marshaler)
    (h h1 : handler W) (err : option error) :
  keyed h ->
  Flush r1 m h = Some (h1, err) ->
  exists doc s,
    toSarif r1 h = Some doc /\ toSarif r2 h1 = Some doc /\
    m doc EmptyString "  " = (s, err) /\
    match err with
    | Some _ => h1 = h /\ Flush r2 m h1 = Some (h, err)
    | None =>
        h1 = {| w := (Write (w h) s).1; cfg := cfg h; osvs := osvs h;
                findings := findings h |} /\
        Flush r2 m h1
        = Some ({| w := (Write (Write (w h) s).1 s).1; cfg := cfg h; osvs := osvs h;
                   findings := findings h |}, None)
    end.
Proof.
  intros Hk. pose proof (toSarif_order_free r2 r1 h Hk) as Hfree.
  unfold Flush. destruct (toSarif r1 h) as [doc|] eqn:Hdoc; simpl; [|done].
  destruct (m doc EmptyString "  ") as [s [e|]] eqn:Hm.
  - intros [= <- <-]. exists doc, s. rewrite Hfree. simpl. by rewrite Hm.
  - destruct (Write (w h) s) as [w' res] eqn:Hw. intros [= <- <-].
    exists doc, s.
    assert (toSarif r2 {| w := w'; cfg := cfg h; osvs := osvs h; findings := findings h |}
            = Some doc) as Hdoc2 by exact Hfree.
    rewrite Hdoc2. simpl. rewrite Hm, Hw. simpl. split_and!; try done.
    by destruct (Write w' s).
Qed.

Lemma Flush_repeatable_witness :
  exists doc s,
    toSarif rangeForward
      {| w := ([] : Buffer); cfg := Some (config (scanLevel true true));
         osvs := {[ "V1" := entry "V1" "first" ]};
         findings := {[ "V1" := [moduleFinding] ]} |} = Some doc /\
    printLog doc EmptyString "  " = (s, None) /\
    Flush rangeBackward printLog
      {| w := ([s] : Buffer); cfg := Some (config (scanLevel true true));
         osvs := {[ "V1" := entry "V1" "first" ]};
         findings := {[ "V1" := [moduleFinding] ]} |}
    = Some ({| w := ([s; s] : Buffer); cfg := Some (config (scanLevel true true));
               osvs := {[ "V1" := entry "V1" "first" ]};
               findings := {[ "V1" := [moduleFinding] ]} |}, None).
Proof.
  assert (keyed {| w := ([] : Buffer); cfg := Some (config (scanLevel true true));
                   osvs := {[ "V1" := entry "V1" "first" ]};
                   findings := {[ "V1" := [moduleFinding] ]} |}) as Hk.
  { apply (drive_keyed [CallConfig (config (scanLevel true true));
                        CallOSV (entry "V1" "first"); CallFinding moduleFinding]
             (NewHandler ([] : Buffer)) _ None (NewHandler_keyed _)).
    vm_compute. reflexivity. }
  destruct (Flush rangeForward printLog
              {| w := ([] : Buffer); cfg := Some (config (scanLevel true true));
                 osvs := {[ "V1" := entry "V1" "first" ]};
                 findings := {[ "V1" := [moduleFinding] ]} |})
    as [[h1 [e|]]|] eqn:Hflush; [by vm_compute in Hflush| |by vm_compute in Hflush].
  destruct (Flush_repeatable rangeForward rangeBackward printLog _ h1 None Hk Hflush)
    as (doc & s & Hdoc & _ & Hm & -> & Hagain).
  exists doc, s. split_and!; [done|done|]. exact Hagain.
Defined.

(** ** The rule catalog and the result list *)

Lemma fmap_insertStable {A} (key : A -> string) (x : A) (l : list A) :
  key <$> insertStable (fun a b => String.ltb (key a) (key b)) x l
  = insertStable String.ltb (key x) (key <$> l).
Proof.
  induction l as [|y l IH]; simpl; [done|].
  destruct (String.ltb (key y) (key x)); simpl; [|done].
  f_equal. exact IH.
Qed.

Lemma fmap_SliceStable {A} (key : A -> string) (l : list A) :
  key <$> SliceStable (fun a b => String.ltb (key a) (key b)) l = Strings (key <$> l).
Proof.
  induction l as [|x l IH]; [done|].
  change (key <$> insertStable (fun a b => String.ltb (key a) (key b)) x
                    (SliceStable (fun a b => String.ltb (key a) (key b)) l)
          = insertStable String.ltb (key x) (Strings (key <$> l))).
  by rewrite fmap_insertStable, IH.
Qed.

Lemma keys_of_map {A} (m : gmap string A) : (map_to_list m).*1 ≡ₚ elements (dom m).
Proof.
  assert (dom m = list_to_set (map_to_list m).*1) as -> by apply leibniz_equiv, dom_alt.
  symmetry. apply elements_list_to_set, NoDup_fst_map_to_list.
Qed.

Lemma sorted_keys_of_range {A} (m : gmap string A) (l : list (string * A)) :
  l ≡ₚ map_to_list m -> Strings (l.*1) = Strings (elements (dom m)).
Proof.
  intros Hl. apply Strings_order_free.
  - by rewrite Hl, keys_of_map.
  - rewrite Hl. apply NoDup_fst_map_to_list.
Qed.

Lemma rule_ID (os : gmap string osv.Entry.t) (id : string) (rl : Rule.t) :
  (forall id e, os !! id = Some e -> osv.Entry.ID e = id) ->
  rule os id = Some rl -> Rule.ID rl = id.
Proof.
  intros Hos. unfold rule. destruct (os !! id) as [d|] eqn:Ed; simpl; [|done].
  intros [= <-]. simpl. by apply Hos.
Qed.

Lemma rules_ids {W} (r : MapRange) (h : handler W) (rs : list Rule.t) :
  keyed h -> rules r h = Some rs ->
  Rule.ID <$> rs = Strings (elements (dom (findings h))).
Proof.
  intros [_ Hos]. unfold rules.
  destruct (mapM _ (range_rules r _ (findings h))) as [k|] eqn:E; simpl; [|done].
  intros [= <-]. rewrite (fmap_SliceStable Rule.ID).
  rewrite (mapM_keys _ fst Rule.ID _ _
             (fun x y _ Hy => rule_ID (osvs h) x.1 y Hos Hy) E).
  apply sorted_keys_of_range, range_rules_perm.
Qed.

(** X11.  For a handler whose maps are keyed by identifier (as every
    handler reached from a fresh one is), the rule catalog, when it is
    built, holds one rule per identifier that has a group: its identifiers
    are the keys of the groups in increasing byte-wise order, whatever the
    order in which the map is visited, and each rule is the rule of the
    definition held for its identifier. *)
Theorem rules_one_per_identifier {W} (r : MapRange) (h : handler W) (rs : list Rule.t) :
  keyed h ->
  rules r h = Some rs ->
  Rule.ID <$> rs = Strings (elements (dom (findings h))) /\
  Forall (fun rl => rule (osvs h) (Rule.ID rl) = Some rl) rs.
Proof.
  intros Hk Hrs. split; [by eapply rules_ids|].
  destruct Hk as [_ Hos]. unfold rules in Hrs.
  destruct (mapM _ (range_rules r _ (findings h))) as [k|] eqn:E; simpl in Hrs; [|done].
  injection Hrs as <-.
  rewrite SliceStable_Permutation. apply mapM_Some in E.
  induction E as [|kv rl l k Hrl E IH]; constructor; [|done].
  by rewrite (rule_ID (osvs h) kv.1 rl Hos Hrl).
Qed.

Lemma rules_one_per_identifier_witness :
  Rule.ID <$> [ {| Rule.ID := "V1";
                   Rule.ShortDescription := {| Description.Text := "[V1] first" |};
                   Rule.FullDescription := {| Description.Text := "first" |};
                   Rule.HelpURI := "https://pkg.go.dev/vuln/V1";
                   Rule.Help := {| Description.Text := "details" |};
                   Rule.Properties := {| RuleTags.Tags := ["CVE-2023-0001"] |} |} ]
  = Strings (elements (dom ({[ "V1" := [moduleFinding] ]}
                              : gmap string (list govulncheck.Finding.t)))).
Proof.
  refine (proj1 (rules_one_per_identifier rangeBackward
                   {| w := ([] : Buffer); cfg := None;
                      osvs := {[ "V1" := entry "V1" "first" ]};
                      findings := {[ "V1" := [moduleFinding] ]} |} _ _ _)).
  - apply (drive_keyed [CallOSV (entry "V1" "first"); CallFinding moduleFinding]
             (NewHandler ([] : Buffer)) _ None (NewHandler_keyed _)).
    vm_compute. reflexivity.
  - vm_compute. reflexivity.
Defined.

Lemma result_RuleID {W} (r : MapRange) (h : handler W) (id : string)
    (g : list govulncheck.Finding.t) (p : Result.t) :
  keyed h -> findings h !! id = Some g -> result r h g = Some p -> Result.RuleID p = id.
Proof.
  intros [Hfs _] Hg. destruct (Hfs id g Hg) as (f0 & rest & -> & Hf0).
  unfold result. simpl.
  destruct (level f0 (cfg h)); simpl; [|done].
  destruct (resultMessage r (f0 :: rest) (cfg h)); simpl; [|done].
  destruct (stacks (f0 :: rest)); simpl; [|done].
  by intros [= <-].
Qed.

Lemma results_ids {W} (r : MapRange) (h : handler W) (res : list Result.t) :
  keyed h -> results r h = Some res ->
  Result.RuleID <$> res = Strings (elements (dom (findings h))).
Proof.
  intros Hk. unfold results.
  destruct (mapM _ (range_results r _ (findings h))) as [k|] eqn:E; simpl; [|done].
  intros [= <-]. rewrite (fmap_SliceStable Result.RuleID).
  assert (Result.RuleID <$> k = (range_results r _ (findings h)).*1) as ->.
  { apply (mapM_keys (fun kv : string * list govulncheck.Finding.t => result r h kv.2)
             fst Result.RuleID); [|exact E].
    intros [id g] p Hin Hp. simpl in *.
    rewrite range_results_perm in Hin. apply elem_of_map_to_list in Hin.
    by eapply result_RuleID. }
  apply sorted_keys_of_range, range_results_perm.
Qed.

(** X12.  Under the same condition the result list, when it is built,
    holds one result per group: its rule identifiers are the keys of the
    groups in increasing byte-wise order, so it lines up with the rule
    catalog entry by entry, and each result is the result of the group
    held under its rule identifier. *)
Theorem results_one_per_identifier {W} (r : MapRange) (h : handler W)
    (res : list Result.t) :
  keyed h ->
  results r h = Some res ->
  Result.RuleID <$> res = Strings (elements (dom (findings h))) /\
  Forall (fun p => exists g, findings h !! Result.RuleID p = Some g /\
                             result r h g = Some p) res.
Proof.
  intros Hk Hres. split; [by eapply results_ids|].
  unfold results in Hres.
  destruct (mapM _ (range_results r _ (findings h))) as [k|] eqn:E; simpl in Hres; [|done].
  injection Hres as <-.
  rewrite SliceStable_Permutation. apply mapM_Some in E.
  assert (Forall (fun kv : string * list govulncheck.Finding.t =>
                    findings h !! kv.1 = Some kv.2)
            (range_results r _ (findings h))) as Hin.
  { apply Forall_forall. intros [id g] Hin.
    rewrite range_results_perm in Hin. by apply elem_of_map_to_list in Hin. }
  induction E as [|kv p l1 k1 Hp E IH]; constructor.
  - exists kv.2. pose proof (Forall_inv Hin) as Hg.
    by rewrite (result_RuleID r h kv.1 kv.2 p Hk Hg Hp).
  - apply IH. by eapply Forall_inv_tail.
Qed.

Lemma results_one_per_identifier_witness :
  Result.RuleID <$> [ {| Result.RuleID := "V1";
                         Result.Level := "error";
                         Result.Message :=
                           {| Description.Text :=
                                "Your code depends on 1 vulnerable module (example.com/m). Run the call-level analysis to understand whether your code actually calls the vulnerabilities." |};
                         Result.Stacks := [] |} ]
  = Strings (elements (dom ({[ "V1" := [moduleFinding] ]}
                              : gmap string (list govulncheck.Finding.t)))).
Proof.
  refine (proj1 (results_one_per_identifier rangeBackward
                   {| w := ([] : Buffer); cfg := Some (config (scanLevel false false));
                      osvs := {[ "V1" := entry "V1" "first" ]};
                      findings := {[ "V1" := [moduleFinding] ]} |} _ _ _)).
  - apply (drive_keyed [CallConfig (config (scanLevel false false));
                        CallOSV (entry "V1" "first"); CallFinding moduleFinding]
             (NewHandler ([] : Buffer)) _ None (NewHandler_keyed _)).
    vm_compute. reflexivity.
  - vm_compute. reflexivity.
Defined.

(** ** Stacks *)

Lemma ltb_irrefl (s : string) : String.ltb s s = false.
Proof. unfold String.ltb. by rewrite string_compare_refl. Qed.

Lemma filter_insertStable {A} (key : A -> string) (k : string) (x : A) (l : list A) :
  filter (fun y => key y = k) (insertStable (fun a b => String.ltb (key a) (key b)) x l)
  = filter (fun y => key y = k) (x :: l).
Proof.
  induction l as [|y l IH]; [done|]. cbn [insertStable].
  destruct (String.ltb (key y) (key x)) eqn:E; [|done].
  assert (key y <> key x) as Hne.
  { intros Heq. rewrite Heq, ltb_irrefl in E. done. }
  rewrite (filter_cons _ y), IH, !filter_cons.
  repeat case_decide; congruence.
Qed.

(** A stable sort keeps the elements of one key in their order. *)
Lemma SliceStable_stable {A} (key : A -> string) (k : string) (l : list A) :
  filter (fun y => key y = k) (SliceStable (fun a b => String.ltb (key a) (key b)) l)
  = filter (fun y => key y = k) l.
Proof.
  induction l as [|x l IH]; [done|].
  change (SliceStable (fun a b => String.ltb (key a) (key b)) (x :: l))
    with (insertStable (fun a b => String.ltb (key a) (key b)) x
            (SliceStable (fun a b => String.ltb (key a) (key b)) l)).
  by rewrite filter_insertStable, !filter_cons, IH.
Qed.

(** X13.  [stack] panics exactly on an empty trace.  On a trace it lists
    the modules of the frames in reverse, so that the sink frame comes
    last, and labels the stack with the package, the receiver when there
    is one, and the function of the sink frame. *)
Theorem stack_frames (f : govulncheck.Finding.t) :
  (stack f = None <-> govulncheck.Finding.Trace f = []) /\
  forall fr tr, govulncheck.Finding.Trace f = fr :: tr ->
    exists s, stack f = Some s /\
      Frame.Module <$> Stack.Frames s
      = reverse (govulncheck.Frame.Module <$> govulncheck.Finding.Trace f) /\
      last (Stack.Frames s) = Some {| Frame.Module := govulncheck.Frame.Module fr |} /\
      stackLabel s
      = "A call stack for vulnerable function " +:+ govulncheck.Frame.Package fr +:+ "."
          +:+ (if nonEmpty (govulncheck.Frame.Receiver fr)
               then govulncheck.Frame.Receiver fr +:+ "." else EmptyString)
          +:+ govulncheck.Frame.Function fr.
Proof.
  unfold stack. split.
  - destruct (govulncheck.Finding.Trace f); simpl; split; done.
  - intros fr tr ->. eexists. split; [reflexivity|]. cbn [Stack.Frames]. split_and!.
    + rewrite <- list_fmap_compose, fmap_reverse. done.
    + rewrite fmap_reverse, last_reverse. done.
    + unfold stackLabel. simpl.
      destruct (nonEmpty (govulncheck.Frame.Receiver fr)); [|done].
      by rewrite append_assoc.
Qed.

Lemma stack_frames_witness :
  exists s, stack stackFromN = Some s /\
    Frame.Module <$> Stack.Frames s
    = reverse (govulncheck.Frame.Module <$> govulncheck.Finding.Trace stackFromN) /\
    last (Stack.Frames s) = Some {| Frame.Module := "example.com/m" |} /\
    stackLabel s = "A call stack for vulnerable function example.com/m/p.F".
Proof.
  exact (proj2 (stack_frames stackFromN) _ _ eq_refl).
Defined.

(** X14.  For a group whose members all have a trace: when the sink frame
    of the first member names no function, there are no stacks; when it
    names one, there is one stack per member, the stacks are in increasing
    byte-wise order of their labels, and stacks with the same label stay in
    the order of their findings. *)
Theorem stacks_sorted_stable (g : list govulncheck.Finding.t)
    (f0 : govulncheck.Finding.t) (rest : list govulncheck.Finding.t)
    (fr : govulncheck.Frame.t) (tr : list govulncheck.Frame.t) :
  g = f0 :: rest ->
  govulncheck.Finding.Trace f0 = fr :: tr ->
  Forall hasTrace g ->
  (nonEmpty (govulncheck.Frame.Function fr) = false -> stacks g = Some []) /\
  (nonEmpty (govulncheck.Frame.Function fr) = true ->
   exists ms ss,
     mapM stack g = Some ms /\ stacks g = Some ss /\
     ss ≡ₚ ms /\ length ss = length g /\
     StronglySorted (fun a b => strle (stackLabel a) (stackLabel b)) ss /\
     forall lbl, filter (fun s => stackLabel s = lbl) ss
                 = filter (fun s => stackLabel s = lbl) ms).
Proof.
  intros -> Htr Hg.
  assert (is_Some (mapM stack (f0 :: rest))) as [ms Hms].
  { apply mapM_is_Some. eapply Forall_impl; [exact Hg|].
    intros f Hf. unfold hasTrace in Hf. simpl. unfold stack.
    destruct (govulncheck.Finding.Trace f); [done|]. simpl. eauto. }
  unfold stacks. cbn [head mbind option_bind]. rewrite Htr. cbn [head mbind option_bind].
  split; intros Hfn; rewrite Hfn; cbn [negb]; [done|].
  rewrite Hms. cbn [mbind option_bind].
  eexists ms, _. split_and!; [done|done| | | |].
  - apply SliceStable_Permutation.
  - rewrite SliceStable_Permutation. apply mapM_Some, Forall2_length in Hms. done.
  - apply (SliceStable_sorted stackLabel).
  - intros lbl. apply (SliceStable_stable stackLabel).
Qed.

Lemma stacks_sorted_stable_witness :
  (stacks [moduleFinding; moduleFinding] = Some []) /\
  (exists ms ss,
     mapM stack [stackFromO; stackFromN; functionFinding] = Some ms /\
     stacks [stackFromO; stackFromN; functionFinding] = Some ss /\
     ss ≡ₚ ms /\ length ss = 3 /\
     StronglySorted (fun a b => strle (stackLabel a) (stackLabel b)) ss /\
     forall lbl, filter (fun s => stackLabel s = lbl) ss
                 = filter (fun s => stackLabel s = lbl) ms).
Proof.
  split.
  - apply (proj1 (stacks_sorted_stable [moduleFinding; moduleFinding] moduleFinding
                    [moduleFinding] _ [] eq_refl eq_refl
                    ltac:(repeat constructor; discriminate))).
    reflexivity.
  - apply (proj2 (stacks_sorted_stable [stackFromO; stackFromN; functionFinding] stackFromO
                    [stackFromN; functionFinding] _ [_] eq_refl eq_refl
                    ltac:(repeat constructor; discriminate))).
    reflexivity.
Defined.

(** ** The document *)

(** X15.  For a handler whose maps are keyed by identifier, a document
    that is built has the version and schema of SARIF 2.1.0 and exactly one
    run; the run names the scanner of the configuration and echoes the
    configuration; it holds as many rules as results as there are groups,
    and rule and result at the same position carry the same identifier. *)
Theorem toSarif_shape {W} (r : MapRange) (h : handler W) (log : Log.t) :
  keyed h ->
  toSarif r h = Some log ->
  exists c run,
    cfg h = Some c /\
    Log.Version log = "2.1.0" /\
    Log.Schema log = "https://json.schemastore.org/sarif-2.1.0.json" /\
    Log.Runs log = [run] /\
    Driver.Name (Tool.Driver (Run.Tool run)) = govulncheck.Config.ScannerName c /\
    Driver.Version (Tool.Driver (Run.Tool run)) = govulncheck.Config.ScannerVersion c /\
    Driver.Properties (Tool.Driver (Run.Tool run)) = c /\
    Rule.ID <$> Driver.Rules (Tool.Driver (Run.Tool run))
    = Result.RuleID <$> Run.Results run /\
    length (Run.Results run) = size (findings h).
Proof.
  intros Hk. unfold toSarif.
  destruct (cfg h) as [c|]; simpl; [|done].
  destruct (rules r h) as [rls|] eqn:Hr; simpl; [|done].
  destruct (results r h) as [res|] eqn:Hs; simpl; [|done].
  intros [= <-]. eexists c, _. cbn [Log.Version Log.Schema Log.Runs].
  split_and!; try done.
  - transitivity (Strings (elements (dom (findings h)))).
    + exact (rules_ids r h rls Hk Hr).
    + symmetry. exact (results_ids r h res Hk Hs).
  - change (length res = size (findings h)).
    rewrite <- (length_fmap Result.RuleID), (results_ids r h res Hk Hs).
    rewrite Strings_Permutation, <- keys_of_map, length_fmap.
    apply length_map_to_list.
Qed.

Lemma toSarif_shape_witness :
  exists log c run,
    toSarif rangeForward
      {| w := ([] : Buffer); cfg := Some (config (scanLevel true true));
         osvs := {[ "V1" := entry "V1" "first" ]};
         findings := {[ "V1" := [stackFromN] ]} |} = Some log /\
    Some (config (scanLevel true true)) = Some c /\
    Log.Runs log = [run] /\
    Driver.Properties (Tool.Driver (Run.Tool run)) = c /\
    Rule.ID <$> Driver.Rules (Tool.Driver (Run.Tool run))
    = Result.RuleID <$> Run.Results run /\
    length (Run.Results run)
    = size ({[ "V1" := [stackFromN] ]} : gmap string (list govulncheck.Finding.t)).
Proof.
  assert (keyed {| w := ([] : Buffer); cfg := Some (config (scanLevel true true));
                   osvs := {[ "V1" := entry "V1" "first" ]};
                   findings := {[ "V1" := [stackFromN] ]} |}) as Hk.
  { apply (drive_keyed [CallConfig (config (scanLevel true true));
                        CallOSV (entry "V1" "first"); CallFinding stackFromN]
             (NewHandler ([] : Buffer)) _ None (NewHandler_keyed _)).
    vm_compute. reflexivity. }
  destruct (toSarif rangeForward
              {| w := ([] : Buffer); cfg := Some (config (scanLevel true true));
                 osvs := {[ "V1" := entry "V1" "first" ]};
                 findings := {[ "V1" := [stackFromN] ]} |}) as [log|] eqn:E;
    [|vm_compute in E; discriminate E].
  destruct (toSarif_shape rangeForward _ log Hk E)
    as (c & run & Hc & _ & _ & Hruns & _ & _ & Hprops & Hids & Hlen).
  exists log, c, run. split_and!; done.
Defined.

(** ** The count in the message *)

Lemma length_sinkUnits unit (fs : list govulncheck.Finding.t) :
  length (sinkUnits unit fs) <= length fs.
Proof.
  unfold sinkUnits. induction fs as [|f fs IH]; [done|]. cbn [omap list_omap length].
  destruct (unit <$> head (govulncheck.Finding.Trace f)); cbn [length]; lia.
Qed.

(** X16.  The number that the message of a group prints is at least 1 and
    at most the number of findings in the group. *)
Theorem message_count_bounds (r : MapRange) (fs : list govulncheck.Finding.t)
    (cfg : govulncheck.Config.t) f0 rest fr0 tr0 :
  fs = f0 :: rest ->
  govulncheck.Finding.Trace f0 = fr0 :: tr0 ->
  (forall f, f ∈ fs -> govulncheck.Finding.Trace f <> []) ->
  exists units : list string,
    resultMessage r fs (Some cfg)
    = Some (messageFor (tier fr0) (govulncheck.Config.ScanLevel cfg) units) /\
    1 <= length units <= length fs.
Proof.
  intros Hfs Htr Htraces. exists (unitsOf fr0 fs).
  split; [by eapply resultMessage_spec|].
  unfold unitsOf. rewrite Strings_Permutation. split.
  - assert (unitOf fr0 fr0 ∈ elements (list_to_set (sinkUnits (unitOf fr0) fs) : gset string))
      as Hin.
    { rewrite elem_of_elements, elem_of_list_to_set, elem_of_sinkUnits.
      exists f0, fr0. rewrite Hfs, Htr. split_and!; [by left|done|done]. }
    destruct (elements _); [by inv Hin|simpl; lia].
  - etrans; [|apply (length_sinkUnits (unitOf fr0))].
    apply submseteq_length, NoDup_submseteq; [apply NoDup_elements|].
    intros u. by rewrite elem_of_elements, elem_of_list_to_set.
Qed.

Lemma message_count_bounds_witness :
  exists units : list string,
    resultMessage rangeForward [packageFinding; packageFinding; functionFinding]
      (Some (config (scanLevel true true)))
    = Some (messageFor PackageTier (scanLevel true true) units) /\
    1 <= length units <= 3.
Proof.
  apply (message_count_bounds rangeForward [packageFinding; packageFinding; functionFinding]
           (config (scanLevel true true)) packageFinding [packageFinding; functionFinding]
           (frame "example.com/m" "example.com/m/p" EmptyString) []); [done|done|].
  intros f Hf. apply list_elem_of_In in Hf. simpl in Hf.
  destruct Hf as [<-|[<-|[<-|[]]]]; discriminate.
Defined.

(** ** Determinism, amended *)

(** *** What [moreSpecific] looks at *)



(** *** The group of an identifier: its best findings *)







(** *** The result of a group, whatever the order of its members *)








(** *** Items computed from the entries of a map, sorted by their keys *)






(** Without a leader the two orders may differ: a module-level and a
    package-level finding are each more specific than the other (line 76),
    so the one submitted last stays; and two call stacks whose sink frames
    name different things are kept in the order of their submission,
    while level and message follow the first. *)
Lemma determinism_fails_without_a_leader :
  ~ DeterminismAt (config (scanLevel true true))
      [CallOSV (entry "V1" "summary"); CallFinding moduleFinding; CallFinding packageFinding]
      [CallOSV (entry "V1" "summary"); CallFinding packageFinding; CallFinding moduleFinding] /\
  ~ DeterminismAt (config (scanLevel true true))
      [CallOSV (entry "V1" "summary"); CallFinding stackWithFunction;
       CallFinding stackWithoutFunction]
      [CallOSV (entry "V1" "summary"); CallFinding stackWithoutFunction;
       CallFinding stackWithFunction].
Proof.
  split; intros Hspec.
  - assert ([CallOSV (entry "V1" "summary"); CallFinding moduleFinding;
             CallFinding packageFinding]
            ≡ₚ [CallOSV (entry "V1" "summary"); CallFinding packageFinding;
                CallFinding moduleFinding]) as Hp.
    { constructor. apply Permutation_swap. }
    specialize (Hspec Hp rangeForward rangeForward printLog).
    vm_compute in Hspec. discriminate Hspec.
  - assert ([CallOSV (entry "V1" "summary"); CallFinding stackWithFunction;
             CallFinding stackWithoutFunction]
            ≡ₚ [CallOSV (entry "V1" "summary"); CallFinding stackWithoutFunction;
                CallFinding stackWithFunction]) as Hp.
    { constructor. apply Permutation_swap. }
    specialize (Hspec Hp rangeForward rangeForward printLog).
    vm_compute in Hspec. discriminate Hspec.
Qed.

(** * Properties of the emitters *)

(** ** Frames *)

(** X17.  [frameFromPackage] panics on a nil package, in spite of its nil
    test, and on a package without module.  Otherwise the frame carries
    the package path, the path and version of the module (of its
    replacement when it has one) and nothing else: it names no function,
    so it is at the package tier, or at the module tier when the package
    path is empty. *)
Theorem frameFromPackage_result (pkg : option packages.Package.t) :
  (frameFromPackage pkg = None <->
   pkg = None \/ exists p, pkg = Some p /\ packages.Package.Module p = None) /\
  forall p m, pkg = Some p -> packages.Package.Module p = Some m ->
    frameFromPackage pkg
    = Some (setPackage (packages.Package.PkgPath p)
              (setModule (shownModule m).1 (shownModule m).2 zeroFrame)) /\
    forall fr, frameFromPackage pkg = Some fr ->
      tier fr = if nonEmpty (packages.Package.PkgPath p) then PackageTier else ModuleTier.
Proof.
  unfold frameFromPackage, shownModule. split.
  - destruct pkg as [p|]; simpl; [|naive_solver].
    destruct (packages.Package.Module p) as [m|] eqn:Em; simpl.
    + destruct (packages.Mod.Replace m); naive_solver.
    + split; [|done]. intros _. right. by exists p.
  - intros p m -> Hm. simpl. rewrite Hm. simpl.
    destruct (packages.Mod.Replace m) as [rep|]; simpl;
      (split; [done|]); intros fr [= <-]; unfold tier; simpl;
      by destruct (nonEmpty (packages.Package.PkgPath p)).
Qed.

Lemma frameFromPackage_result_witness :
  frameFromPackage (Some (package "example.com/m/p" (forkedModule "example.com/m" "example.com/fork")))
  = Some (setPackage "example.com/m/p"
            (setModule "example.com/fork" "v1.0.0-fork" zeroFrame)) /\
  forall fr,
    frameFromPackage (Some (package "example.com/m/p"
                              (forkedModule "example.com/m" "example.com/fork"))) = Some fr ->
    tier fr = PackageTier.
Proof.
  exact (proj2 (frameFromPackage_result
                  (Some (package "example.com/m/p"
                           (forkedModule "example.com/m" "example.com/fork"))))
           _ _ eq_refl eq_refl).
Defined.

(** The loop of [frameFromModule] over the affected entries. *)
Lemma frameFromModule_loop_None (path : string) (affected : list Affected.t)
    (acc : option govulncheck.Frame.t) :
  acc = None \/
  Exists (fun a => Affected.ModulePath a = path /\ Affected.PackagePaths a = []) affected ->
  foldl (fun acc a =>
           fr ← acc;
           if bool_decide (Affected.ModulePath a <> path) then Some fr
           else p ← head (Affected.PackagePaths a); Some (setPackage p fr))
        acc affected
  = None.
Proof.
  revert acc. induction affected as [|a l IH]; intros acc [Hacc|Hex].
  - by subst.
  - by apply Exists_nil in Hex.
  - subst. cbn [foldl]. apply IH. by left.
  - cbn [foldl]. apply IH. apply Exists_cons in Hex as [[Hm He]|Hex]; [left|by right].
    destruct acc as [fr|]; [|done]. simpl.
    rewrite bool_decide_false by (intros ?; done). by rewrite He.
Qed.

Lemma frameFromModule_loop_Some (path : string) (affected : list Affected.t)
    (fr : govulncheck.Frame.t) :
  Forall (fun a => Affected.ModulePath a = path -> Affected.PackagePaths a <> []) affected ->
  foldl (fun acc a =>
           fr ← acc;
           if bool_decide (Affected.ModulePath a <> path) then Some fr
           else p ← head (Affected.PackagePaths a); Some (setPackage p fr))
        (Some fr) affected
  = Some (match last (filter (fun a => Affected.ModulePath a = path) affected) with
          | Some a => setPackage (default EmptyString (head (Affected.PackagePaths a))) fr
          | None => fr
          end).
Proof.
  intros Hall. revert fr. induction Hall as [|a l Ha Hall IH]; intros fr; [done|].
  cbn [foldl mbind option_bind]. rewrite filter_cons.
  case_bool_decide as Hm.
  - rewrite IH. by rewrite decide_False.
  - rewrite decide_True by done.
    destruct (Affected.PackagePaths a) as [|p ps] eqn:Ep; [by destruct (Ha Hm)|].
    cbn [head mbind option_bind]. rewrite IH, last_cons.
    destruct (last (filter _ l)) as [b|]; [done|]. by rewrite Ep.
Qed.

(** X18.  [frameFromModule] panics on a nil module, and on the standard
    library module when an affected entry for it lists no package.
    Otherwise the frame carries the path and version of the module (of its
    replacement when it has one) and names no function; it names a package
    only for the standard library module, and then the first package of
    the last affected entry for that module. *)
Theorem frameFromModule_result {env : Env} (md : option packages.Mod.t)
    (affected : list Affected.t) :
  (frameFromModule md affected = None <->
   md = None \/
   exists m, md = Some m /\ packages.Mod.Path m = GoStdModulePath /\
             Exists (fun a => Affected.ModulePath a = packages.Mod.Path m /\
                              Affected.PackagePaths a = []) affected) /\
  forall m fr, md = Some m -> frameFromModule md affected = Some fr ->
    govulncheck.Frame.Module fr = (shownModule m).1 /\
    govulncheck.Frame.Version fr = (shownModule m).2 /\
    govulncheck.Frame.Function fr = EmptyString /\
    govulncheck.Frame.Package fr
    = (if decide (packages.Mod.Path m = GoStdModulePath) then
         match last (filter (fun a => Affected.ModulePath a = packages.Mod.Path m) affected) with
         | Some a => default EmptyString (head (Affected.PackagePaths a))
         | None => EmptyString
         end
       else EmptyString) /\
    tier fr <> FunctionTier.
Proof.
  unfold frameFromModule, shownModule.
  destruct md as [m|]; simpl; [|split; [naive_solver|done]].
  destruct (decide (Exists (fun a => Affected.ModulePath a = packages.Mod.Path m /\
                                     Affected.PackagePaths a = []) affected)) as [Hex|Hex].
  - case_bool_decide as Hstd.
    + rewrite frameFromModule_loop_None by by right. simpl. split; [|done].
      split; [|done]. intros _. right. by exists m.
    + simpl. split.
      * destruct (packages.Mod.Replace m); split; try done; intros [?|(? & [= <-] & ? & _)]; done.
      * intros ? fr [= <-]. rewrite decide_False by done.
        destruct (packages.Mod.Replace m); intros [= <-]; simpl; split_and!; try done;
          unfold tier; simpl; try done; by destruct (nonEmpty _).
  - assert (Forall (fun a => Affected.ModulePath a = packages.Mod.Path m ->
                             Affected.PackagePaths a <> []) affected) as Hall.
    { apply Forall_forall. intros a Ha Hm He. apply Hex, Exists_exists. by exists a. }
    split.
    + case_bool_decide as Hstd; [rewrite frameFromModule_loop_Some by done|]; simpl;
        destruct (packages.Mod.Replace m); split; try done;
        intros [?|(? & [= <-] & _ & ?)]; done.
    + intros ? fr [= <-].
      case_bool_decide as Hstd; [rewrite frameFromModule_loop_Some by done|]; simpl.
      * rewrite decide_True by done.
        destruct (last (filter _ affected)) as [a|], (packages.Mod.Replace m);
          intros [= <-]; simpl; split_and!; try done;
          unfold tier; simpl; try done; by destruct (nonEmpty _).
      * rewrite decide_False by done.
        destruct (packages.Mod.Replace m); intros [= <-]; simpl; split_and!; try done;
          unfold tier; simpl; try done; by destruct (nonEmpty _).
Qed.

Lemma frameFromModule_result_witness :
  frameFromModule (env := sampleEnv) (Some (plainModule "stdlib"))
    [ {| Affected.ModulePath := "example.com/m"; Affected.PackagePaths := [] |};
      {| Affected.ModulePath := "stdlib"; Affected.PackagePaths := ["net/http"; "net"] |} ]
  = Some (setPackage "net/http" (setModule "stdlib" "v1.0.0" zeroFrame)) /\
  govulncheck.Frame.Package (setPackage "net/http" (setModule "stdlib" "v1.0.0" zeroFrame))
  = "net/http" /\
  tier (setPackage "net/http" (setModule "stdlib" "v1.0.0" zeroFrame)) <> FunctionTier.
Proof.
  assert (frameFromModule (env := sampleEnv) (Some (plainModule "stdlib"))
            [ {| Affected.ModulePath := "example.com/m"; Affected.PackagePaths := [] |};
              {| Affected.ModulePath := "stdlib";
                 Affected.PackagePaths := ["net/http"; "net"] |} ]
          = Some (setPackage "net/http" (setModule "stdlib" "v1.0.0" zeroFrame))) as Hfr
    by (vm_compute; reflexivity).
  split; [exact Hfr|].
  destruct (proj2 (frameFromModule_result (env := sampleEnv) (Some (plainModule "stdlib")) _)
              (plainModule "stdlib") _ eq_refl Hfr) as (_ & _ & _ & Hp & Ht).
  split; [exact Hp|exact Ht].
Defined.

(** ** Traces *)

(** X19.  [tracefromEntries] builds one frame per stack entry, last entry
    first, each with the function name of its entry; it panics when an
    entry has no function or [frameFromPackage] panics on its package.
    The stack that [stack] then builds for the report turns the frames
    back: it lists the modules of the entries in the order of the call
    stack.  An empty call stack gives an empty trace, on which [stack]
    panics. *)
Theorem tracefromEntries_stack_order {env : Env} (vcs : CallStack)
    (tr : list govulncheck.Frame.t) (id fixed : string) :
  tracefromEntries vcs = Some tr ->
  length tr = length vcs /\
  Forall2 (fun e fr => exists fn, StackEntry.Function e = Some fn /\
                                  govulncheck.Frame.Function fr = FuncNode.Name fn)
          vcs (reverse tr) /\
  (vcs = [] ->
   stack {| govulncheck.Finding.OSV := id; govulncheck.Finding.FixedVersion := fixed;
            govulncheck.Finding.Trace := tr |} = None) /\
  (vcs <> [] ->
   exists s,
     stack {| govulncheck.Finding.OSV := id; govulncheck.Finding.FixedVersion := fixed;
              govulncheck.Finding.Trace := tr |} = Some s /\
     Forall2 (fun e m => exists fr, frameOfEntry e = Some fr /\
                                    Frame.Module m = govulncheck.Frame.Module fr)
             vcs (Stack.Frames s)).
Proof.
  unfold tracefromEntries. intros Htr. apply mapM_Some in Htr.
  pose proof (Forall2_length _ _ _ Htr) as Hlen. rewrite length_reverse in Hlen.
  apply Forall2_reverse in Htr. rewrite reverse_involutive in Htr.
  split_and!.
  - done.
  - eapply Forall2_impl; [exact Htr|]. intros e fr. unfold frameOfEntry.
    destruct (StackEntry.Function e) as [fn|]; simpl; [|done].
    destruct (frameFromPackage (FuncNode.Package fn)); simpl; [|done].
    intros [= <-]. by exists fn.
  - intros ->. destruct tr; [done|discriminate].
  - intros Hne. unfold stack. cbn [govulncheck.Finding.Trace].
    destruct tr as [|fr0 tr]; [by destruct vcs|]. cbn [head mbind option_bind].
    eexists. split; [reflexivity|]. cbn [Stack.Frames].
    apply Forall2_fmap_r. eapply Forall2_impl; [exact Htr|].
    intros e fr Hfr. by exists fr.
Qed.

Lemma tracefromEntries_stack_order_witness :
  exists s,
    stack {| govulncheck.Finding.OSV := "V1"; govulncheck.Finding.FixedVersion := "v1.0.1";
             govulncheck.Finding.Trace :=
               [frame "example.com/m" "example.com/m/p" "F";
                frame "example.com/n" "example.com/n/q" "main"] |} = Some s /\
    Forall2 (fun e m => exists fr, frameOfEntry (env := sampleEnv) e = Some fr /\
                                   Frame.Module m = govulncheck.Frame.Module fr)
            [entryOf "main" (package "example.com/n/q" (plainModule "example.com/n"));
             entryOf "F" (package "example.com/m/p" (plainModule "example.com/m"))]
            (Stack.Frames s).
Proof.
  apply (tracefromEntries_stack_order (env := sampleEnv)
           [entryOf "main" (package "example.com/n/q" (plainModule "example.com/n"));
            entryOf "F" (package "example.com/m/p" (plainModule "example.com/m"))]
           [frame "example.com/m" "example.com/m/p" "F";
            frame "example.com/n" "example.com/n/q" "main"] "V1" "v1.0.1");
    [reflexivity|discriminate].
Defined.

(** ** Loops over a handler *)

Lemma forEach_ext {S A} (body1 body2 : S -> A -> option (S * option error))
    (s : S) (l : list A) :
  (forall s x, body1 s x = body2 s x) -> forEach body1 s l = forEach body2 s l.
Proof.
  intros Hb. revert s. induction l as [|x l IH]; intros s; simpl; [done|].
  rewrite Hb. destruct (body2 s x) as [[s' [e|]]|]; simpl; auto.
Qed.

Lemma forEach_app {S A} (body : S -> A -> option (S * option error))
    (s : S) (l1 l2 : list A) :
  forEach body s (l1 ++ l2)
  = '(s', err) ← forEach body s l1;
    match err with Some e => Some (s', Some e) | None => forEach body s' l2 end.
Proof.
  revert s. induction l1 as [|x l1 IH]; intros s; simpl; [done|].
  destruct (body s x) as [[s' [e|]]|]; simpl; auto.
Qed.

(** A loop in a loop is one loop over the pairs. *)
Lemma forEach_nested {S A B} (body : A -> S -> B -> option (S * option error))
    (sub : A -> list B) (s : S) (l : list A) :
  forEach (fun s x => forEach (body x) s (sub x)) s l
  = forEach (fun s p => body p.1 s p.2) s (l ≫= fun x => pair x <$> sub x).
Proof.
  revert s. induction l as [|x l IH]; intros s; [done|].
  cbn [forEach]. rewrite bind_cons, forEach_app.
  assert (forall s0, forEach (body x) s0 (sub x)
                     = forEach (fun s p => body p.1 s p.2) s0 (pair x <$> sub x)) as Hin.
  { intros s0. generalize (sub x). intros lb. revert s0.
    induction lb as [|b lb IHb]; intros s0; simpl; [done|].
    destruct (body x s0 b) as [[s' [e|]]|]; simpl; auto. }
  rewrite Hin.
  destruct (forEach _ s (pair x <$> sub x)) as [[s' [e|]]|]; simpl; auto.
Qed.

Lemma pairs_snd {A B} (sub : A -> list B) (l : list A) :
  (l ≫= fun x => pair x <$> sub x).*2 = l ≫= sub.
Proof.
  induction l as [|x l IH]; [done|].
  rewrite !bind_cons, fmap_app, IH. f_equal.
  rewrite <- list_fmap_compose. apply list_fmap_id.
Qed.

(** One call per element. *)
Lemma Forall2_concat_singletons {A} (P : A -> call -> Prop) (l : list A)
    (css : list (list call)) :
  Forall2 (fun x cs => exists c, cs = [c] /\ P x c) l css -> Forall2 P l (concat css).
Proof.
  induction 1 as [|x cs l css (c & -> & Hc) _ IH]; simpl; by constructor.
Qed.

Lemma forEach_drive {W} (h : handler W) (cs : list call) :
  forEach (fun h c => handle h c) h cs = drive h cs.
Proof.
  revert h. induction cs as [|c cs IH]; intros h; [done|].
  cbn [forEach drive]. change (handle h c) with (step h c).
  destruct (step h c) as [[h' [e|]]|]; simpl; [done|apply IH|done].
Qed.

Lemma forEach_fmap {S A B} (body : S -> B -> option (S * option error)) (f : A -> B)
    (s : S) (l : list A) :
  forEach (fun s x => body s (f x)) s l = forEach body s (f <$> l).
Proof.
  revert s. induction l as [|x l IH]; intros s; simpl; [done|].
  destruct (body s (f x)) as [[s' [e|]]|]; simpl; auto.
Qed.

Lemma definitionsFor_definitions (id : string) (l : list osv.Entry.t) :
  definitionsFor id (CallOSV <$> l) = filter (fun d => osv.Entry.ID d = id) l.
Proof.
  unfold definitionsFor, definitionsOf. f_equal.
  induction l as [|d l IH]; [done|].
  change (d :: omap (fun c => match c with CallOSV e => Some e | _ => None end)
                 (CallOSV <$> l) = d :: l).
  by rewrite IH.
Qed.

Lemma lastConfig_no_Config (cs : list call) (c0 : option govulncheck.Config.t) :
  (forall c, CallConfig c ∉ cs) -> lastConfig c0 cs = c0.
Proof.
  intros Hnone. destruct (lastConfig_cases cs c0) as [[Hl _]|(c & Hc & _)]; [done|].
  by destruct (Hnone c).
Qed.

(** X20.  On the SARIF handler [emitOSVs] never fails and never panics:
    it submits every definition of every module, in order, and returns
    nil.  Afterwards the handler holds, for each identifier among them, the
    last definition with that identifier; the configuration, the groups
    and the sink are as before. *)
Theorem emitOSVs_defines {W} (h : handler W) (modVulns : list ModVulns.t) :
  exists h',
    emitOSVs h modVulns = Some (h', None) /\
    w h' = w h /\ cfg h' = cfg h /\ findings h' = findings h /\
    forall id,
      osvs h' !! id
      = match last (filter (fun d => osv.Entry.ID d = id) (modVulns ≫= ModVulns.Vulns)) with
        | Some d => Some d
        | None => osvs h !! id
        end.
Proof.
  assert (emitOSVs h modVulns = drive h (CallOSV <$> (modVulns ≫= ModVulns.Vulns))) as Hd.
  { unfold emitOSVs.
    rewrite (forEach_nested (fun _ handler v => handle handler (CallOSV v)) ModVulns.Vulns).
    rewrite <- forEach_drive, <- (forEach_fmap (fun h c => handle h c) CallOSV).
    rewrite <- (pairs_snd ModVulns.Vulns).
    by rewrite <- (forEach_fmap (fun s v => handle s (CallOSV v)) snd). }
  assert (forall f, CallFinding f ∉ CallOSV <$> (modVulns ≫= ModVulns.Vulns)) as Hnf.
  { intros f Hf. apply list_elem_of_fmap in Hf as (d & [=] & _). }
  assert (forall c, CallConfig c ∉ CallOSV <$> (modVulns ≫= ModVulns.Vulns)) as Hnc.
  { intros c Hc. apply list_elem_of_fmap in Hc as (d & [=] & _). }
  destruct (drive_without_findings _ h Hnf) as (h' & Hrun & Hfs & Hw & Hc).
  exists h'. rewrite Hd. split_and!; [done|done| |done|].
  - by rewrite Hc, lastConfig_no_Config.
  - intros id. rewrite (drive_osvs _ _ _ None id Hrun). by rewrite definitionsFor_definitions.
Qed.

(** On the recorder a loop whose body adds calls adds them all, in order,
    and returns nil; it panics when one of its bodies does. *)
Lemma forEach_Recorder {A} (g : A -> option (list call))
    (body : Recorder -> A -> option (Recorder * option error)) :
  (forall h x, body h x = cs ← g x; Some (h ++ cs, None)) ->
  forall (l : list A) (h : Recorder),
    forEach body h l = css ← mapM g l; Some (h ++ concat css, None).
Proof.
  intros Hb. induction l as [|x l IH]; intros h.
  - simpl. by rewrite app_nil_r.
  - cbn [forEach]. rewrite Hb. cbn [mapM].
    destruct (g x) as [cs|]; simpl; [|done]. rewrite IH.
    destruct (mapM g l) as [css|]; simpl; [|done]. by rewrite app_assoc.
Qed.

(** ** Findings below the function tier *)

Lemma frameFromModule_no_function {env : Env} (md : option packages.Mod.t)
    (affected : list Affected.t) (fr : govulncheck.Frame.t) :
  frameFromModule md affected = Some fr -> govulncheck.Frame.Function fr = EmptyString.
Proof.
  unfold frameFromModule. destruct md as [m|]; simpl; [|done].
  case_bool_decide as Hstd.
  - destruct (decide (Exists (fun a => Affected.ModulePath a = packages.Mod.Path m /\
                                       Affected.PackagePaths a = []) affected)) as [Hex|Hex].
    + rewrite frameFromModule_loop_None by by right. done.
    + rewrite frameFromModule_loop_Some.
      * simpl. destruct (last (filter _ affected)), (packages.Mod.Replace m);
          by intros [= <-].
      * apply Forall_forall. intros a Ha Hm He. apply Hex, Exists_exists. by exists a.
  - simpl. destruct (packages.Mod.Replace m); by intros [= <-].
Qed.

Lemma frameFromPackage_no_function (pkg : option packages.Package.t)
    (fr : govulncheck.Frame.t) :
  frameFromPackage pkg = Some fr -> govulncheck.Frame.Function fr = EmptyString.
Proof.
  unfold frameFromPackage. destruct pkg as [p|]; simpl; [|done].
  destruct (packages.Package.Module p) as [m|]; simpl; [|done].
  destruct (packages.Mod.Replace m); by intros [= <-].
Qed.

(** X21.  [emitModuleFindings], run on a handler that records its calls,
    submits one finding per definition of every module and nothing else,
    in order, and returns nil.  Each finding carries the identifier of its
    definition and a trace of exactly one frame, which names no function:
    such a finding has no stack in the report, and under a configuration
    that asks for symbols its level is never the error level. *)
Theorem emitModuleFindings_calls {env : Env} (modVulns : list ModVulns.t)
    (calls : Recorder) (err : option error) :
  emitModuleFindings ([] : Recorder) modVulns = Some (calls, err) ->
  err = None /\
  Forall2 (fun d c =>
             exists f fr,
               c = CallFinding f /\
               govulncheck.Finding.OSV f = osv.Entry.ID d /\
               govulncheck.Finding.Trace f = [fr] /\
               govulncheck.Frame.Function fr = EmptyString /\
               stacks [f] = Some [] /\
               forall cfg, govulncheck.ScanLevel.WantSymbols (govulncheck.Config.ScanLevel cfg)
                           = true ->
                           level f (Some cfg) <> Some errorLevel)
          (modVulns ≫= ModVulns.Vulns) calls.
Proof.
  unfold emitModuleFindings.
  rewrite (forEach_nested
             (fun vuln handler d =>
                fixed ← fixedVersionOf (ModVulns.Module vuln) (AffectedOf d);
                fr ← frameFromModule (ModVulns.Module vuln) (AffectedOf d);
                handle handler
                  (CallFinding {| govulncheck.Finding.OSV := osv.Entry.ID d;
                                  govulncheck.Finding.FixedVersion := fixed;
                                  govulncheck.Finding.Trace := [fr] |}))
             ModVulns.Vulns).
  rewrite (forEach_Recorder
             (fun p : ModVulns.t * osv.Entry.t =>
                fixed ← fixedVersionOf (ModVulns.Module p.1) (AffectedOf p.2);
                fr ← frameFromModule (ModVulns.Module p.1) (AffectedOf p.2);
                Some [CallFinding {| govulncheck.Finding.OSV := osv.Entry.ID p.2;
                                     govulncheck.Finding.FixedVersion := fixed;
                                     govulncheck.Finding.Trace := [fr] |}])).
  2:{ intros h [mv d]. simpl.
      destruct (fixedVersionOf _ _); simpl; [|done].
      by destruct (frameFromModule _ _). }
  destruct (mapM _ _) as [css|] eqn:E; simpl; [|done].
  intros [= <- <-]. split; [done|].
  apply mapM_Some in E.
  rewrite <- (pairs_snd ModVulns.Vulns). apply Forall2_fmap_l.
  apply Forall2_concat_singletons. eapply Forall2_impl; [exact E|].
  intros [mv d] cs Hd. simpl in *.
  destruct (fixedVersionOf _ _) as [fixed|]; simpl in Hd; [|done].
  destruct (frameFromModule _ _) as [fr|] eqn:Efr; simpl in Hd; [|done].
  injection Hd as <-. eexists. split; [done|].
  pose proof (frameFromModule_no_function _ _ _ Efr) as Hfn.
  eexists _, fr. split_and!; try done.
  - unfold stacks. simpl. by rewrite Hfn.
  - intros cfg Hsym. unfold level. simpl. rewrite Hsym, Hfn. simpl.
    by destruct (nonEmpty (govulncheck.Frame.Package fr)).
Qed.

Lemma emitModuleFindings_calls_witness :
  Forall2 (fun d c =>
             exists f fr,
               c = CallFinding f /\
               govulncheck.Finding.OSV f = osv.Entry.ID d /\
               govulncheck.Finding.Trace f = [fr] /\
               govulncheck.Frame.Function fr = EmptyString /\
               stacks [f] = Some [] /\
               forall cfg, govulncheck.ScanLevel.WantSymbols (govulncheck.Config.ScanLevel cfg)
                           = true ->
                           level f (Some cfg) <> Some errorLevel)
          [entry "V1" "first"; entry "V2" "second"]
          [CallFinding {| govulncheck.Finding.OSV := "V1";
                          govulncheck.Finding.FixedVersion := "v1.0.1";
                          govulncheck.Finding.Trace :=
                            [setModule "example.com/m" "v1.0.0" zeroFrame] |};
           CallFinding {| govulncheck.Finding.OSV := "V2";
                          govulncheck.Finding.FixedVersion := "v1.0.1";
                          govulncheck.Finding.Trace :=
                            [setModule "example.com/m" "v1.0.0" zeroFrame] |}].
Proof.
  apply (emitModuleFindings_calls (env := sampleEnv)
           [ {| ModVulns.Module := Some (plainModule "example.com/m");
                ModVulns.Vulns := [entry "V1" "first"; entry "V2" "second"] |} ]
           _ None).
  vm_compute. reflexivity.
Defined.

Lemma importedFinding_shape {env : Env} (vuln : Vuln.t) (f : govulncheck.Finding.t) :
  importedFinding vuln = Some f ->
  exists d fr,
    Vuln.OSV vuln = Some d /\
    govulncheck.Finding.OSV f = osv.Entry.ID d /\
    frameFromPackage (Vuln.ImportSink vuln) = Some fr /\
    govulncheck.Finding.Trace f = [fr] /\
    govulncheck.Frame.Function fr = EmptyString.
Proof.
  unfold importedFinding.
  destruct (Vuln.OSV vuln) as [d|]; simpl; [|done].
  destruct (Vuln.ImportSink vuln) as [sink|] eqn:Es; simpl; [|done].
  destruct (fixedVersionOf _ _) as [fixed|]; simpl; [|done].
  destruct (frameFromPackage (Some sink)) as [fr|] eqn:Efr; simpl; [|done].
  intros [= <-]. exists d, fr. split_and!; try done.
  by eapply frameFromPackage_no_function.
Qed.

(** X22.  [emitPackageFinding] submits one finding, under the identifier
    of the definition of the vulnerability, with a trace of exactly one
    frame, the one [frameFromPackage] builds for the import sink, which
    names no function; it panics when the definition or the import sink is
    nil.  On the SARIF handler the call changes nothing and returns nil
    when the group of that identifier starts with a call stack or with a
    function-level finding. *)
Theorem emitPackageFinding_on_handler {env : Env} {W} (h : handler W) (vuln : Vuln.t) :
  (Vuln.OSV vuln = None \/ Vuln.ImportSink vuln = None -> emitPackageFinding h vuln = None) /\
  forall f, importedFinding vuln = Some f ->
    emitPackageFinding h vuln = Finding h f /\
    (exists d fr,
       Vuln.OSV vuln = Some d /\
       govulncheck.Finding.OSV f = osv.Entry.ID d /\
       frameFromPackage (Vuln.ImportSink vuln) = Some fr /\
       govulncheck.Finding.Trace f = [fr] /\
       govulncheck.Frame.Function fr = EmptyString) /\
    forall f0 rest p0,
      findings h !! govulncheck.Finding.OSV f = Some (f0 :: rest) ->
      precision f0 = Some p0 -> 2 <= p0 ->
      emitPackageFinding h vuln = Some (h, None).
Proof.
  split.
  - unfold emitPackageFinding, importedFinding. intros [->| ->]; simpl; [done|].
    by destruct (Vuln.OSV vuln).
  - intros f Hf. unfold emitPackageFinding. rewrite Hf. simpl.
    change (handle h (CallFinding f)) with (Finding h f).
    split; [done|]. split; [by apply importedFinding_shape|].
    intros f0 rest p0 Hg Hp0 Hge.
    destruct (importedFinding_shape vuln f Hf) as (d & fr & _ & _ & _ & Htr & Hfn).
    assert (exists p, precision f = Some p /\ p < 2) as (p & Hp & Hlt).
    { unfold precision, sinkTier, tier. rewrite Htr. simpl. rewrite Hfn. simpl.
      destruct (nonEmpty (govulncheck.Frame.Package fr)); eexists; split; simpl; done || lia. }
    destruct (moreSpecific_precision f f0 p p0 Hp Hp0) as (_ & Hless & _ & _).
    unfold Finding, submit. rewrite Hg. simpl. rewrite Hless by lia. simpl.
    rewrite insert_id by done. by destruct h.
Qed.

Lemma emitPackageFinding_on_handler_witness :
  emitPackageFinding (env := sampleEnv) (holding "V1" [stackFromN])
    (vulnOf "V1" "F" (package "example.com/m/p" (plainModule "example.com/m")))
  = Some (holding "V1" [stackFromN], None).
Proof.
  refine (proj2 (proj2 (proj2 (emitPackageFinding_on_handler (env := sampleEnv)
                                 (holding "V1" [stackFromN])
                                 (vulnOf "V1" "F"
                                    (package "example.com/m/p" (plainModule "example.com/m"))))
                          _ eq_refl))
            stackFromN [] 3 _ eq_refl _).
  - reflexivity.
  - lia.
Defined.

(** ** Called vulnerabilities *)

Lemma Forall2_concat_filter {A} (P : A -> Prop) `{!forall x, Decision (P x)}
    (Q : A -> call -> Prop) (l : list A) (css : list (list call)) :
  Forall2 (fun x cs => (~ P x /\ cs = []) \/ (P x /\ exists c, cs = [c] /\ Q x c)) l css ->
  Forall2 Q (filter P l) (concat css).
Proof.
  induction 1 as [|x cs l css [[Hx ->]|[Hx (c & -> & Hc)]] _ IH]; simpl.
  - constructor.
  - by rewrite filter_cons_False.
  - rewrite filter_cons_True by done. by constructor.
Qed.

(** X23.  [emitCalledVulns], run on a handler that records its calls,
    visits the vulnerabilities in increasing byte-wise order of their
    symbols, vulnerabilities with the same symbol in the order in which the
    map was visited, and submits one finding for each that has a call
    stack: the finding of [calledFinding], whose trace is the one
    [tracefromEntries] builds.  It submits nothing else and returns nil. *)
Theorem emitCalledVulns_in_symbol_order {env : Env}
    (callstacks : list (Vuln.t * option CallStack)) (calls : Recorder)
    (err : option error) :
  emitCalledVulns ([] : Recorder) callstacks = Some (calls, err) ->
  err = None /\
  exists sorted : list (Vuln.t * option CallStack),
    sorted ≡ₚ callstacks /\
    StronglySorted (fun a b => strle (Vuln.Symbol a.1) (Vuln.Symbol b.1)) sorted /\
    (forall sym, filter (fun a => Vuln.Symbol a.1 = sym) sorted
                 = filter (fun a => Vuln.Symbol a.1 = sym) callstacks) /\
    Forall2 (fun a c => exists stack f,
               a.2 = Some stack /\ calledFinding a.1 stack = Some f /\ c = CallFinding f)
            (filter (fun a => is_Some a.2) sorted) calls.
Proof.
  unfold emitCalledVulns.
  rewrite (forEach_Recorder
             (fun a : Vuln.t * option CallStack =>
                match a.2 with
                | None => Some []
                | Some stack => f ← calledFinding a.1 stack; Some [CallFinding f]
                end)).
  2:{ intros h [v [stack|]]; simpl; [|by rewrite app_nil_r].
      by destruct (calledFinding v stack). }
  destruct (mapM _ _) as [css|] eqn:E; simpl; [|done].
  intros [= <- <-]. split; [done|].
  eexists. split_and!.
  - apply SliceStable_Permutation.
  - apply (SliceStable_sorted (fun a : Vuln.t * option CallStack => Vuln.Symbol a.1)).
  - intros sym.
    apply (SliceStable_stable (fun a : Vuln.t * option CallStack => Vuln.Symbol a.1)).
  - apply mapM_Some in E. apply Forall2_concat_filter.
    eapply Forall2_impl; [exact E|]. intros [v [stack|]] cs; simpl.
    + destruct (calledFinding v stack) as [f|] eqn:Ef; simpl; [|done].
      intros [= <-]. right. split; [done|]. eexists. split; [done|]. by exists stack, f.
    + intros [= <-]. left. split; [|done]. by intros [? [=]].
Qed.

Lemma emitCalledVulns_in_symbol_order_witness :
  exists sorted : list (Vuln.t * option CallStack),
    sorted ≡ₚ [(vulnOf "V2" "b.G" (package "b" (plainModule "example.com/m")),
                Some [entryOf "G" (package "b" (plainModule "example.com/m"))]);
               (vulnOf "V3" "c.H" (package "c" (plainModule "example.com/m")), None);
               (vulnOf "V1" "a.F" (package "a" (plainModule "example.com/m")),
                Some [entryOf "F" (package "a" (plainModule "example.com/m"))])] /\
    StronglySorted (fun a b => strle (Vuln.Symbol a.1) (Vuln.Symbol b.1)) sorted /\
    Forall2 (fun a c => exists stack f,
               a.2 = Some stack /\ calledFinding (env := sampleEnv) a.1 stack = Some f /\
               c = CallFinding f)
            (filter (fun a => is_Some a.2) sorted)
            [CallFinding (finding "V1" [frame "example.com/m" "a" "F"]);
             CallFinding (finding "V2" [frame "example.com/m" "b" "G"])].
Proof.
  destruct (emitCalledVulns_in_symbol_order (env := sampleEnv)
              [(vulnOf "V2" "b.G" (package "b" (plainModule "example.com/m")),
                Some [entryOf "G" (package "b" (plainModule "example.com/m"))]);
               (vulnOf "V3" "c.H" (package "c" (plainModule "example.com/m")), None);
               (vulnOf "V1" "a.F" (package "a" (plainModule "example.com/m")),
                Some [entryOf "F" (package "a" (plainModule "example.com/m"))])]
              [CallFinding (finding "V1" [frame "example.com/m" "a" "F"]);
               CallFinding (finding "V2" [frame "example.com/m" "b" "G"])]
              None ltac:(vm_compute; reflexivity))
    as (_ & sorted & Hp & Hs & _ & Hc).
  by exists sorted.
Defined.

(** ** Binary results *)

Lemma emitAffected_step {env : Env} (h0 : Recorder) (em0 : gset string)
    (vv : Vuln.t) (stack : option CallStack) h em err :
  emitAffected (h0, em0) (vv, stack) = Some ((h, em), err) ->
  err = None /\
  ((stack = None /\ h = h0 /\ em = em0) \/
   exists st f, stack = Some st /\ calledFinding vv st = Some f /\
                h = h0 ++ [CallFinding f] /\ em = {[govulncheck.Finding.OSV f]} ∪ em0).
Proof.
  unfold emitAffected, calledFinding.
  destruct (Vuln.ImportSink vv) as [sink|]; simpl; [|done].
  destruct (Vuln.OSV vv) as [d|]; simpl; [|done].
  destruct (fixedVersionOf _ _) as [fixed|]; simpl; [|done].
  destruct stack as [st|]; simpl.
  - destruct (tracefromEntries st) as [trace|] eqn:Etr; simpl; [|done].
    intros [= <- <- <-]. split; [done|]. right. eexists st, _.
    rewrite Etr. simpl. by split_and!.
  - intros [= <- <- <-]. split; [done|]. by left.
Qed.

Lemma emitImported_step {env : Env} (h0 : Recorder) (em0 : gset string)
    (vv : Vuln.t) (stacks : option CallStack) h em err :
  emitImported (h0, em0) (vv, stacks) = Some ((h, em), err) ->
  err = None /\
  exists d, Vuln.OSV vv = Some d /\
    ((h = h0 /\ em = em0 /\ (osv.Entry.ID d ∈ em0 \/ default [] stacks <> [])) \/
     exists f, (osv.Entry.ID d ∉ em0) /\ default [] stacks = [] /\
               importedFinding vv = Some f /\ govulncheck.Finding.OSV f = osv.Entry.ID d /\
               h = h0 ++ [CallFinding f] /\ em = {[osv.Entry.ID d]} ∪ em0).
Proof.
  unfold emitImported.
  destruct (Vuln.OSV vv) as [d|] eqn:Ed; simpl; [|done].
  case_bool_decide as Hin; simpl.
  { intros [= <- <- <-]. split; [done|]. exists d. split; [done|]. left. auto. }
  destruct (length (default [] stacks) =? 0) eqn:Elen; simpl.
  2:{ intros [= <- <- <-]. split; [done|]. exists d. split; [done|]. left.
      split_and!; try done. right. intros He. by rewrite He in Elen. }
  destruct (importedFinding vv) as [f|] eqn:Ef; simpl; [|done].
  destruct (importedFinding_shape vv f Ef) as (d' & fr & Hd' & Hid & _).
  rewrite Ed in Hd'. injection Hd' as <-.
  intros [= <- <- <-]. split; [done|]. exists d. split; [done|]. right. exists f.
  split_and!; try done. apply Nat.eqb_eq in Elen. by apply nil_length_inv.
Qed.

Lemma emitAffected_loop {env : Env} (vulns : list (Vuln.t * option CallStack)) :
  forall (h0 : Recorder) (em0 : gset string) h em err,
    forEach emitAffected (h0, em0) vulns = Some ((h, em), err) ->
    err = None /\
    exists called : list govulncheck.Finding.t,
      h = h0 ++ (CallFinding <$> called) /\
      em = list_to_set (govulncheck.Finding.OSV <$> called) ∪ em0 /\
      Forall2 (fun a f => exists stack, a.2 = Some stack /\ calledFinding a.1 stack = Some f)
              (filter (fun a => is_Some a.2) vulns) called.
Proof.
  induction vulns as [|[vv stack] vulns IH]; intros h0 em0 h em err.
  - simpl. intros [= <- <- <-]. split; [done|]. exists []. simpl.
    rewrite app_nil_r. split_and!; [done|set_solver|constructor].
  - cbn [forEach].
    destruct (emitAffected (h0, em0) (vv, stack)) as [[[h1 em1] e1]|] eqn:Es; simpl; [|done].
    apply emitAffected_step in Es as [-> [(-> & -> & ->)|(st & f & -> & Hf & -> & ->)]].
    + intros E. apply IH in E as (-> & called & -> & -> & Hc). split; [done|].
      exists called. split_and!; [done|done|].
      rewrite filter_cons_False; [done|]. by intros [? [=]].
    + intros E. apply IH in E as (-> & called & -> & -> & Hc). split; [done|].
      exists (f :: called). split_and!.
      * by rewrite <- app_assoc.
      * simpl. set_solver.
      * rewrite filter_cons_True by (by eexists). constructor; [|done]. by exists st.
Qed.

Lemma emitImported_loop {env : Env} (vulns : list (Vuln.t * option CallStack)) :
  forall (h0 : Recorder) (em0 : gset string) h em err,
    forEach emitImported (h0, em0) vulns = Some ((h, em), err) ->
    err = None /\
    exists imported : list govulncheck.Finding.t,
      h = h0 ++ (CallFinding <$> imported) /\
      em = list_to_set (govulncheck.Finding.OSV <$> imported) ∪ em0 /\
      NoDup (govulncheck.Finding.OSV <$> imported) /\
      Forall (fun f => (govulncheck.Finding.OSV f ∉ em0) /\
                       exists a, a ∈ vulns /\ default [] a.2 = [] /\
                                 importedFinding a.1 = Some f) imported /\
      forall a d, a ∈ vulns -> Vuln.OSV a.1 = Some d -> default [] a.2 = [] ->
                  osv.Entry.ID d ∈ em.
Proof.
  induction vulns as [|[vv stacks] vulns IH]; intros h0 em0 h em err.
  - simpl. intros [= <- <- <-]. split; [done|]. exists []. simpl.
    rewrite app_nil_r. split_and!; [done|set_solver|constructor|constructor|].
    intros a d Ha. by apply elem_of_nil in Ha.
  - cbn [forEach].
    destruct (emitImported (h0, em0) (vv, stacks)) as [[[h1 em1] e1]|] eqn:Es; simpl; [|done].
    apply emitImported_step in Es
      as [-> (d & Ed & [(-> & -> & Hskip)|(f & Hout & Hempty & Hf & Hid & -> & ->)])].
    + intros E. apply IH in E as (-> & imported & -> & -> & Hnd & Hall & Hcov).
      split; [done|]. exists imported. split_and!; try done.
      * eapply Forall_impl; [exact Hall|]. intros f (Hf & a & Ha & Hrest).
        split; [done|]. exists a. split; [by right|done].
      * intros a d' [->|Ha]%elem_of_cons Hd' He; [|by eapply Hcov].
        simpl in Hd', He. rewrite Ed in Hd'. injection Hd' as <-.
        destruct Hskip as [Hin|Hne]; [set_solver|done].
    + intros E. apply IH in E as (-> & imported & -> & -> & Hnd & Hall & Hcov).
      split; [done|]. exists (f :: imported). split_and!.
      * by rewrite <- app_assoc.
      * simpl. rewrite Hid. set_solver.
      * simpl. constructor; [|done]. rewrite Hid. intros Hx.
        apply list_elem_of_fmap in Hx as (f' & Hf' & Hmem).
        rewrite Forall_forall in Hall. destruct (Hall f' Hmem) as [Hnew _].
        rewrite <- Hf' in Hnew. set_solver.
      * constructor.
        -- split; [by rewrite Hid|]. exists (vv, stacks). split; [by left|done].
        -- eapply Forall_impl; [exact Hall|]. intros f' (Hf' & a & Ha & Hrest).
           split; [set_solver|]. exists a. split; [by right|done].
      * intros a d' [->|Ha]%elem_of_cons Hd' He; [|by eapply Hcov].
        simpl in Hd'. rewrite Ed in Hd'. injection Hd' as <-. set_solver.
Qed.

(** X24.  [emitBinaryResult], run on a handler that records its calls,
    first submits, in the order of [vr.Vulns], the call finding of every
    vulnerability that has a call stack, then import findings: at most one
    for an identifier, none for an identifier that got a call finding, each
    for a vulnerability without call stack.  Every vulnerability without
    call stack has its identifier among the submitted findings, and the
    function returns nil. *)
Theorem emitBinaryResult_calls {env : Env} (vulns : list (Vuln.t * option CallStack))
    (calls : Recorder) (err : option error) :
  emitBinaryResult ([] : Recorder) vulns = Some (calls, err) ->
  err = None /\
  exists called imported : list govulncheck.Finding.t,
    calls = (CallFinding <$> called) ++ (CallFinding <$> imported) /\
    Forall2 (fun a f => exists stack, a.2 = Some stack /\ calledFinding a.1 stack = Some f)
            (filter (fun a => is_Some a.2) vulns) called /\
    NoDup (govulncheck.Finding.OSV <$> imported) /\
    Forall (fun f => (govulncheck.Finding.OSV f ∉ govulncheck.Finding.OSV <$> called) /\
                     exists a, a ∈ vulns /\ default [] a.2 = [] /\
                               importedFinding a.1 = Some f) imported /\
    forall a d, a ∈ vulns -> Vuln.OSV a.1 = Some d -> default [] a.2 = [] ->
                osv.Entry.ID d ∈ govulncheck.Finding.OSV <$> (called ++ imported).
Proof.
  unfold emitBinaryResult.
  destruct (forEach emitAffected _ vulns) as [[[h1 em1] err1]|] eqn:E1; simpl; [|done].
  apply emitAffected_loop in E1 as (-> & called & -> & -> & Hcalled).
  destruct (forEach emitImported _ vulns) as [[[h2 em2] err2]|] eqn:E2; simpl; [|done].
  apply emitImported_loop in E2 as (-> & imported & -> & -> & Hnd & Hall & Hcov).
  intros [= <- <-]. split; [done|]. exists called, imported. split_and!; try done.
  - eapply Forall_impl; [exact Hall|]. intros f (Hf & Hrest). split; [|done].
    intros Hx. apply Hf. set_solver.
  - intros a d Ha Hd He. specialize (Hcov a d Ha Hd He).
    rewrite fmap_app. set_solver.
Qed.

Lemma emitBinaryResult_calls_witness :
  exists called imported : list govulncheck.Finding.t,
    [CallFinding (finding "V1" [frame "example.com/m" "a" "F"]);
     CallFinding (finding "V2" [frame "example.com/m" "b" EmptyString])]
    = (CallFinding <$> called) ++ (CallFinding <$> imported) /\
    NoDup (govulncheck.Finding.OSV <$> imported) /\
    Forall (fun f => govulncheck.Finding.OSV f ∉ govulncheck.Finding.OSV <$> called)
           imported.
Proof.
  destruct (emitBinaryResult_calls (env := sampleEnv)
              [(vulnOf "V1" "a.G" (package "a" (plainModule "example.com/m")), None);
               (vulnOf "V2" "b.G" (package "b" (plainModule "example.com/m")), None);
               (vulnOf "V1" "a.F" (package "a" (plainModule "example.com/m")),
                Some [entryOf "F" (package "a" (plainModule "example.com/m"))]);
               (vulnOf "V2" "b.H" (package "b" (plainModule "example.com/m")), None)]
              [CallFinding (finding "V1" [frame "example.com/m" "a" "F"]);
               CallFinding (finding "V2" [frame "example.com/m" "b" EmptyString])]
              None ltac:(vm_compute; reflexivity))
    as (_ & called & imported & Hc & _ & Hnd & Hall & _).
  exists called, imported. split_and!; [done|done|].
  eapply Forall_impl; [exact Hall|]. by intros f [Hf _].
Defined.
